(** * AI-Book-Tutor: the PDF ingestion pipeline of [ingest.py]

    A shallow embedding of [extract_heading] and [ingest_pdf_to_vectordb]
    together with the properties of the pipeline: heading extraction by
    pattern priority, chapter inheritance across pages, page-local section
    tags, chunk identifiers, discarded blank chunks, chunk sizes, and what the
    two search indices are built from.

    Python [str] values are lists of characters.  A character is a code point
    in the range U+0000..U+00FF (the [ascii] type read as Latin-1); the
    character classes below are the ones Python's [re] and [str] methods use
    on that range. *)

From Stdlib Require Import Ascii String ZArith DecimalString DecimalNat DecimalZ.
From stdpp Require Import gmap strings list.

Abbreviation str := (list ascii).

Coercion list_ascii_of_string : string >-> list.

(** ** Characters *)

Module Char.

Definition code (c : ascii) : nat := nat_of_ascii c.

Definition between (lo hi : nat) (c : ascii) : bool :=
  (lo <=? code c) && (code c <=? hi).

Definition newline : ascii := ascii_of_nat 10.

Definition is_newline (c : ascii) : bool := code c =? 10.

(** [\d] *)
Definition is_digit (c : ascii) : bool := between 48 57 c.

(** [\s], and the characters [str.strip()] removes: TAB..CR, FS..US, space,
    NEL and NBSP. *)
Definition is_space (c : ascii) : bool :=
  between 9 13 c || between 28 31 c || (code c =? 32)
  || (code c =? 133) || (code c =? 160).

Definition is_upper (c : ascii) : bool := between 65 90 c.
Definition is_lower (c : ascii) : bool := between 97 122 c.

(** [[A-Za-z]] *)
Definition is_letter (c : ascii) : bool := is_upper c || is_lower c.

(** [\w]: alphanumeric code points and the underscore. *)
Definition is_word (c : ascii) : bool :=
  is_digit c || is_letter c || (code c =? 95)
  || (code c =? 170) || (code c =? 178) || (code c =? 179)
  || (code c =? 181) || (code c =? 185) || (code c =? 186)
  || between 188 190 c || between 192 214 c || between 216 246 c
  || between 248 255 c.

(** [.] without DOTALL *)
Definition is_dot (c : ascii) : bool := negb (is_newline c).

(** [str.lower()] on one character: A-Z, and the Latin-1 capitals
    U+00C0..U+00DE except the multiplication sign. *)
Definition lower (c : ascii) : ascii :=
  if is_upper c || (between 192 222 c && negb (code c =? 215))
  then ascii_of_nat (code c + 32)
  else c.

(** A literal character of a pattern compiled with IGNORECASE. *)
Definition ieq (a c : ascii) : bool := bool_decide (lower a = lower c).

Definition eq (a c : ascii) : bool := bool_decide (a = c).

End Char.

(** ** Regular expressions: the fragment of [re] that HEADING_PATTERNS uses *)

Inductive regex : Type :=
| Eps
| Cls (f : ascii → bool)      (* one character of a class *)
| Bol                         (* [^] under MULTILINE *)
| Bos                         (* [^] without MULTILINE *)
| Wordb                       (* [\b] *)
| Seq (r s : regex)
| Alt (r s : regex)
| Star (r : regex).           (* greedy *)

Definition Plus (r : regex) : regex := Seq r (Star r).

(** A literal word, character by character. *)
Fixpoint Lit (eqc : ascii → ascii → bool) (w : str) : regex :=
  match w with
  | [] => Eps
  | a :: w' => Seq (Cls (eqc a)) (Lit eqc w')
  end.

(** A position in the subject: the character before it, if any, and the rest
    of the text. *)
Definition pos : Type := option ascii * str.

Definition at_line_start (p : pos) : bool :=
  match p.1 with
  | None => true
  | Some c => Char.is_newline c
  end.

Definition at_word_boundary (p : pos) : bool :=
  xorb (from_option Char.is_word false p.1)
       (from_option Char.is_word false (head p.2)).

(** The greedy loop: one more iteration first, then the exit.  An iteration
    that consumes nothing is not repeated. *)
Fixpoint star_ends (step : pos → list pos) (fuel : nat) (p : pos) : list pos :=
  match fuel with
  | 0 => [p]
  | S fuel' =>
      (filter (λ q, length q.2 < length p.2) (step p)
         ≫= star_ends step fuel') ++ [p]
  end.

(** [ends r p]: the positions at which a match of [r] begun at [p] can end, in
    the order the backtracking matcher tries them. *)
Fixpoint ends (r : regex) (p : pos) : list pos :=
  match r with
  | Eps => [p]
  | Cls f =>
      match p.2 with
      | c :: rest => if f c then [(Some c, rest)] else []
      | [] => []
      end
  | Bol => if at_line_start p then [p] else []
  | Bos => if p.1 is None then [p] else []
  | Wordb => if at_word_boundary p then [p] else []
  | Seq r1 r2 => ends r1 p ≫= ends r2
  | Alt r1 r2 => ends r1 p ++ ends r2 p
  | Star r1 => star_ends (ends r1) (length p.2) p
  end.

(** [pattern.search]: the leftmost start that matches; the result is the start
    offset and [group(0)]. *)
Fixpoint search_from (r : regex) (start : nat) (prev : option ascii) (rest : str)
  : option (nat * str) :=
  match ends r (prev, rest) with
  | e :: _ => Some (start, take (length rest - length e.2) rest)
  | [] =>
      match rest with
      | [] => None
      | c :: rest' => search_from r (S start) (Some c) rest'
      end
  end.

Definition search (r : regex) (text : str) : option (nat * str) :=
  search_from r 0 None text.

(** [re.match]: a match at the start of the text only. *)
Definition re_match (r : regex) (text : str) : option str :=
  match ends r (None, text) with
  | e :: _ => Some (take (length text - length e.2) text)
  | [] => None
  end.

(** ** HEADING_PATTERNS and [extract_heading] (ingest.py, lines 18-31) *)

Definition dotted_numeral : regex :=
  Seq (Plus (Cls Char.is_digit))
      (Star (Seq (Cls (Char.eq ".")) (Plus (Cls Char.is_digit)))).

(** [^(Chapter|CHAPTER)\b.*], IGNORECASE | MULTILINE *)
Definition pattern_chapter : regex :=
  Seq Bol (Seq (Alt (Lit Char.ieq "Chapter") (Lit Char.ieq "CHAPTER"))
               (Seq Wordb (Star (Cls Char.is_dot)))).

(** [^(Section|SECTION)\b.*], IGNORECASE | MULTILINE *)
Definition pattern_section : regex :=
  Seq Bol (Seq (Alt (Lit Char.ieq "Section") (Lit Char.ieq "SECTION"))
               (Seq Wordb (Star (Cls Char.is_dot)))).

(** [^\d+(?:\.\d+)*\s+.+], MULTILINE *)
Definition pattern_numbered : regex :=
  Seq Bol (Seq dotted_numeral
               (Seq (Plus (Cls Char.is_space)) (Plus (Cls Char.is_dot)))).

(** [^\d+(?:\.\d+)*\s+[A-Za-z].*], MULTILINE *)
Definition pattern_numbered_alpha : regex :=
  Seq Bol (Seq dotted_numeral
               (Seq (Plus (Cls Char.is_space))
                    (Seq (Cls Char.is_letter) (Star (Cls Char.is_dot))))).

(** [^chapter\.\s+Here\'s\s+the\s+link:], IGNORECASE | MULTILINE *)
Definition pattern_link : regex :=
  Seq Bol
   (Seq (Lit Char.ieq "chapter")
   (Seq (Cls (Char.eq "."))
   (Seq (Plus (Cls Char.is_space))
   (Seq (Lit Char.ieq "Here's")
   (Seq (Plus (Cls Char.is_space))
   (Seq (Lit Char.ieq "the")
   (Seq (Plus (Cls Char.is_space))
        (Lit Char.ieq "link:")))))))).

Definition HEADING_PATTERNS : list regex :=
  [ pattern_chapter; pattern_section; pattern_numbered;
    pattern_numbered_alpha; pattern_link ].

(** The loop of [extract_heading] over a list of patterns. *)
Fixpoint first_match (patterns : list regex) (text : str) : option str :=
  match patterns with
  | [] => None
  | pattern :: patterns' =>
      match search pattern text with
      | Some m => Some m.2
      | None => first_match patterns' text
      end
  end.

Definition extract_heading (text : str) : option str :=
  first_match HEADING_PATTERNS text.

(** ** Python values and helpers used by the ingestion loop *)

(** Metadata values: [None], an [int] or a [str]. *)
Inductive value : Type :=
| VNone
| VInt (n : Z)
| VStr (s : str).

(** A LangChain [Document]: text and a metadata dict. *)
Record Document : Type := mkDocument {
  page_content : str;
  metadata : gmap string value;
}.

(** [d.get(key, None)] *)
Definition dict_get (d : gmap string value) (key : string) : value :=
  default VNone (d !! key).

(** [str(n)] for a non-negative [int] *)
Definition str_of_nat (n : nat) : str :=
  NilZero.string_of_uint (Nat.to_uint n).

(** [str(n)] for an [int] *)
Definition str_of_Z (n : Z) : str :=
  NilZero.string_of_int (Z.to_int n).

(** What an f-string writes for [{v}]. *)
Definition format_value (v : value) : str :=
  match v with
  | VNone => "None"
  | VInt n => str_of_Z n
  | VStr s => s
  end.

(** Truth value of a [str]: non-empty. *)
Definition truthy (s : str) : bool :=
  match s with
  | [] => false
  | _ :: _ => true
  end.

(** [x or ""] for an optional [str] *)
Definition or_empty (x : option str) : str :=
  match x with
  | Some s => if truthy s then s else []
  | None => []
  end.

Fixpoint lstrip (s : str) : str :=
  match s with
  | [] => []
  | c :: s' => if Char.is_space c then lstrip s' else s
  end.

Definition rstrip (s : str) : str := reverse (lstrip (reverse s)).

(** [s.strip()] *)
Definition strip (s : str) : str := rstrip (lstrip s).

(** [s.lower()] *)
Definition lower (s : str) : str := Char.lower <$> s.

Fixpoint startswith (w s : str) : bool :=
  match w, s with
  | [], _ => true
  | a :: w', c :: s' => Char.eq a c && startswith w' s'
  | _ :: _, [] => false
  end.

(** [w in s] *)
Fixpoint contains (w s : str) : bool :=
  startswith w s ||
  match s with
  | [] => false
  | _ :: s' => contains w s'
  end.

(** [s.rfind(c)] for a single character, [None] for -1. *)
Fixpoint rfind (c : ascii) (s : str) : option nat :=
  match s with
  | [] => None
  | a :: s' =>
      match rfind c s' with
      | Some i => Some (S i)
      | None => if Char.eq c a then Some 0 else None
      end
  end.

(** [os.path.basename] (posixpath): what follows the last slash. *)
Definition basename (p : str) : str :=
  match rfind "/" p with
  | Some i => drop (S i) p
  | None => p
  end.

(** [os.path.splitext(p)[0]] (posixpath): the path without its extension; a
    name made of leading dots only has no extension. *)
Definition splitext_root (p : str) : str :=
  let filenameIndex := if rfind "/" p is Some i then S i else 0 in
  match rfind "." p with
  | Some dotIndex =>
      if bool_decide (filenameIndex ≤ dotIndex)
         && existsb (λ c, negb (Char.eq "." c))
                    (drop filenameIndex (take dotIndex p))
      then take dotIndex p
      else p
  | None => p
  end.

(** [r'^\d+(?:\.\d+)*\s+'], the numbered-heading test of line 79. *)
Definition numbered_prefix : regex :=
  Seq Bos (Seq dotted_numeral (Plus (Cls Char.is_space))).

(** ** The page loop of [ingest_pdf_to_vectordb] (ingest.py, lines 60-104) *)

(** Lines 70-83: the chapter and section of a fragment, and the chapter
    carried to the next page.  The result is [(chapter, section,
    current_chapter)]. *)
Definition tag_fragment (heading : option str) (current_chapter : option str)
  : option str * option str * option str :=
  let '(chapter, section, current_chapter) :=
    match heading with
    | Some h =>
        if truthy h then
          let low := lower h in
          if contains "chapter" low then (Some h, None, Some h)
          else if contains "section" low then (None, Some h, current_chapter)
          else if re_match numbered_prefix h is Some _
               then (None, Some h, current_chapter)
               else (None, None, current_chapter)
        else (None, None, current_chapter)
    | None => (None, None, current_chapter)
    end in
  let chapter := if chapter is None then current_chapter else chapter in
  (chapter, section, current_chapter).

(** Line 102: the chunk identifier. *)
Definition chunk_id_of (pdf_path : str) (page_num : value)
    (frag_idx sidx : nat) (uuid_hex : str) : str :=
  basename pdf_path ++ "_p" ++ format_value page_num
    ++ "_f" ++ str_of_nat frag_idx ++ "_s" ++ str_of_nat sidx
    ++ "_" ++ take 8 uuid_hex.

(** Lines 96-103: the metadata dict of a chunk. *)
Definition chunk_meta (pdf_path collection_name : str)
    (chapter section : option str) (page_num : value)
    (frag_idx sidx : nat) (uuid_hex : str) : gmap string value :=
  <["book_title" := VStr collection_name]>
  (<["chapter" := VStr (or_empty chapter)]>
  (<["section" := VStr (or_empty section)]>
  (<["page_number" := page_num]>
  (<["source" := VStr (basename pdf_path)]>
  (<["chunk_id" :=
       VStr (chunk_id_of pdf_path page_num frag_idx sidx uuid_hex)]> ∅))))).

(** The state the page loop carries: the chapter seen last, and how many
    times [uuid4] has been called. *)
Record loop_state : Type := mkLoopState {
  current_chapter : option str;
  uuid_calls : nat;
}.

Section Ingest.

(** [text_splitter.split_text] of the splitter built on line 57, and the run's
    random source: [uuid4_hex n] is [uuid4().hex] of the [n]-th call. *)
Variable split_text : str → list str.
Variable uuid4_hex : nat → str.

(** [text_splitter.split_documents]: every page is split and each piece keeps
    a copy of its page's metadata. *)
Definition split_documents (docs : list Document) : list Document :=
  d ← docs; (λ piece, mkDocument piece (metadata d)) <$> split_text (page_content d).

(** Lines 85-89: the sub-chunks of a fragment: the splitter's pieces for a
    text of more than 1000 characters, the text itself otherwise. *)
Definition small_chunks_of (frag_text : str) : list str :=
  if bool_decide (1000 < length frag_text)
  then split_text frag_text
  else [frag_text].

(** Lines 91-104: the loop over [enumerate(small_chunks)]. *)
Fixpoint tag_chunks (meta : nat → str → gmap string value)
    (sidx calls : nat) (small_chunks : list str) : nat * list Document :=
  match small_chunks with
  | [] => (calls, [])
  | chunk_text :: rest =>
      let chunk_text := strip chunk_text in
      if truthy chunk_text then
        let d := mkDocument chunk_text (meta sidx (uuid4_hex calls)) in
        let '(calls', ds) := tag_chunks meta (S sidx) (S calls) rest in
        (calls', d :: ds)
      else tag_chunks meta (S sidx) calls rest
  end.

(** Lines 64-104: one iteration of the loop over the pages; the chunks it
    appends to [chunk_docs] are returned. *)
Definition ingest_page (pdf_path collection_name : str)
    (st : loop_state) (page_doc : Document) : loop_state * list Document :=
  let page_text := page_content page_doc in
  let page_num := dict_get (metadata page_doc) "page" in
  let heading := extract_heading page_text in
  let frag_idx := 0 in
  let frag_text := page_text in
  let '(chapter, section, current_chapter') :=
    tag_fragment heading (current_chapter st) in
  let small_chunks := small_chunks_of frag_text in
  let '(calls', ds) :=
    tag_chunks (chunk_meta pdf_path collection_name chapter section
                           page_num frag_idx)
               0 (uuid_calls st) small_chunks in
  (mkLoopState current_chapter' calls', ds).

(** Lines 63-104 over all pages: the chunks of each page, in page order. *)
Fixpoint ingest_pages (pdf_path collection_name : str)
    (st : loop_state) (doc : list Document) : list (list Document) :=
  match doc with
  | [] => []
  | page_doc :: doc' =>
      let '(st', ds) := ingest_page pdf_path collection_name st page_doc in
      ds :: ingest_pages pdf_path collection_name st' doc'
  end.

Definition initial_state : loop_state := mkLoopState None 0.

(** [chunk_docs] after the loop. *)
Definition chunk_docs_of (pdf_path collection_name : str)
    (doc : list Document) : list Document :=
  mjoin (ingest_pages pdf_path collection_name initial_state doc).

End Ingest.

(** ** The collaborators of [ingest_pdf_to_vectordb]

    The splitter, the PDF loader and the two index builders are LangChain
    classes.  The models below keep what the ingestion code relies on: how the
    splitter cuts a text, which documents the loader yields, and which
    documents an index holds. *)

Module RecursiveCharacterTextSplitter.

(** The default separators of the class, tried in this order. *)
Definition default_separators : list str :=
  [ [Char.newline; Char.newline]; [Char.newline]; [" "%char]; [] ].

(** Splitting at a literal separator that is kept at the start of the piece
    that follows it.  [skip] counts the characters of a separator just found
    that are still to be passed over; [acc] is the current piece, reversed. *)
Fixpoint split_keep (sep : str) (skip : nat) (acc text : str) : list str :=
  match text with
  | [] => [reverse acc]
  | c :: text' =>
      match skip with
      | S k => split_keep sep k (c :: acc) text'
      | 0 =>
          if startswith sep text
          then reverse acc :: split_keep sep (length sep - 1) [c] text'
          else split_keep sep 0 (c :: acc) text'
      end
  end.

(** [_split_text_with_regex(text, separator, keep_separator=True)]: the empty
    separator gives the characters; empty pieces are dropped. *)
Definition split_text_with_regex (text separator : str) : list str :=
  filter (λ s, s ≠ [])
         (if truthy separator
          then split_keep separator 0 [] text
          else (λ c, [c]) <$> text).

(** [separator.join(docs)] *)
Fixpoint join (separator : str) (docs : list str) : str :=
  match docs with
  | [] => []
  | [d] => d
  | d :: docs' => d ++ separator ++ join separator docs'
  end.

(** [_join_docs] with [strip_whitespace=True]: [None] for a blank result. *)
Definition join_docs (docs : list str) (separator : str) : option str :=
  let text := strip (join separator docs) in
  if truthy text then Some text else None.

Section Config.

Variables chunk_size chunk_overlap : nat.

(** The [while] loop of [_merge_splits] that drops pieces from the front of
    [current_doc] until what is left fits the overlap and leaves room for the
    next piece of length [len].  [total] is the length of what [current_doc]
    holds, so the loop has stopped by the time the list is empty. *)
Fixpoint pop_front (separator_len len total : nat) (current_doc : list str)
  : nat * list str :=
  match current_doc with
  | [] => (total, [])
  | d0 :: current_doc' =>
      if bool_decide (chunk_overlap < total)
         || (bool_decide (chunk_size < total + len + separator_len)
             && bool_decide (0 < total))
      then
        pop_front separator_len len
          (total - (length d0
                    + (if bool_decide (1 < length current_doc)
                       then separator_len else 0)))
          current_doc'
      else (total, current_doc)
  end.

(** [_merge_splits]: the loop over the pieces, then the last join. *)
Fixpoint merge_loop (separator : str) (splits : list str)
    (docs current_doc : list str) (total : nat) : list str :=
  match splits with
  | [] => docs ++ option_list (join_docs current_doc separator)
  | d :: splits' =>
      let separator_len := length separator in
      let len := length d in
      let '(docs, current_doc, total) :=
        if bool_decide
             (chunk_size < total + len
                + (if bool_decide (0 < length current_doc)
                   then separator_len else 0))
           && bool_decide (0 < length current_doc)
        then
          let docs := docs ++ option_list (join_docs current_doc separator) in
          let '(total, current_doc) :=
            pop_front separator_len len total current_doc in
          (docs, current_doc, total)
        else (docs, current_doc, total) in
      let current_doc := current_doc ++ [d] in
      let total :=
        total + len
        + (if bool_decide (1 < length current_doc) then separator_len else 0) in
      merge_loop separator splits' docs current_doc total
  end.

Definition merge_splits (splits : list str) (separator : str) : list str :=
  merge_loop separator splits [] [] 0.

Definition flush (good_splits : list str) : list str :=
  if bool_decide (good_splits = []) then [] else merge_splits good_splits [].

(** The loop of [_split_text] over the pieces: short pieces are collected and
    merged, a long one is split again with the remaining separators ([recur]),
    or kept whole when none remain. *)
Fixpoint split_loop (recur : option (str → list str))
    (splits good_splits : list str) : list str :=
  match splits with
  | [] => flush good_splits
  | s :: splits' =>
      if bool_decide (length s < chunk_size)
      then split_loop recur splits' (good_splits ++ [s])
      else
        flush good_splits
        ++ (match recur with
            | None => [s]
            | Some again => again s
            end)
        ++ split_loop recur splits' []
  end.

(** [_split_text(text, separators)]: the first separator that is empty or
    occurs in the text is used (the last one when none does). *)
Fixpoint split_text_with (separators : list str) (text : str) : list str :=
  match separators with
  | [] => []
  | s :: new_separators =>
      if negb (truthy s) then
        split_loop None (split_text_with_regex text s) []
      else if contains s text then
        split_loop
          (if bool_decide (new_separators = []) then None
           else Some (split_text_with new_separators))
          (split_text_with_regex text s) []
      else if bool_decide (new_separators = []) then
        split_loop None (split_text_with_regex text s) []
      else split_text_with new_separators text
  end.

Definition split_text (text : str) : list str :=
  split_text_with default_separators text.

End Config.

End RecursiveCharacterTextSplitter.

(** Line 57: [split_text] of
    [RecursiveCharacterTextSplitter(chunk_size=1000, chunk_overlap=200)]. *)
Definition langchain_split : str → list str :=
  RecursiveCharacterTextSplitter.split_text 1000 200.

(** What [ingest_pdf_to_vectordb] can raise: the loader's failure on a missing
    or invalid file, and the dense index builder's failure on an empty list of
    documents. *)
Inductive exception : Type :=
| LoadError
| IndexError.

(** A file the loader is pointed at. *)
Inductive file : Type :=
| NotPdf
| Pdf (pages : list str).

(** [PyPDFLoader(pdf_path).load()]: one document per page, in order, tagged
    with the path and the page index. *)
Definition PyPDFLoader_load (files : str → option file) (pdf_path : str)
  : exception + list Document :=
  match files pdf_path with
  | None => inl LoadError
  | Some NotPdf => inl LoadError
  | Some (Pdf pages) =>
      inr (imap (λ i text,
                   mkDocument text
                     (<["source" := VStr pdf_path]>
                      (<["page" := VInt (Z.of_nat i)]> ∅)))
                pages)
  end.

(** A FAISS store: the documents it indexes. *)
Record vectorstore : Type := mkVectorstore {
  docstore : list Document;
}.

(** [FAISS.from_documents]: the dimension of the index is read off the first
    embedding, which fails on an empty list. *)
Definition FAISS_from_documents (docs : list Document)
  : exception + vectorstore :=
  match docs with
  | [] => inl IndexError
  | _ :: _ => inr (mkVectorstore docs)
  end.

(** A retriever: the documents it searches. *)
Inductive retriever : Type :=
| VectorStoreRetriever (vs : vectorstore)
| TFIDFRetriever (docs : list Document).

Definition corpus (r : retriever) : list Document :=
  match r with
  | VectorStoreRetriever vs => docstore vs
  | TFIDFRetriever docs => docs
  end.

(** [EnsembleRetriever(retrievers=..., weights=...)]; weights in tenths. *)
Record EnsembleRetriever : Type := mkEnsembleRetriever {
  retrievers : list retriever;
  weights : list nat;
}.

(** The documents a search of the ensemble can return. *)
Definition searchable (h : EnsembleRetriever) : list Document :=
  r ← retrievers h; corpus r.

(** The files the loader reads and the stores saved under [vector_stores/]. *)
Record world : Type := mkWorld {
  files : str → option file;
  vector_stores : gmap string (list Document);
}.

Section IngestPdf.

Variable split_text : str → list str.
Variable uuid4_hex : nat → str.

(** [ingest_pdf_to_vectordb] (ingest.py, lines 33-126). *)
Definition ingest_pdf_to_vectordb (pdf_path : str) (collection_name : option str)
    (w : world)
  : world * (exception + (EnsembleRetriever * vectorstore * list Document)) :=
  let collection_name :=
    match collection_name with
    | None => splitext_root (basename pdf_path)
    | Some name => name
    end in
  match PyPDFLoader_load (files w) pdf_path with
  | inl e => (w, inl e)
  | inr doc =>
      let chunks := split_documents split_text doc in
      let chunk_docs :=
        chunk_docs_of split_text uuid4_hex pdf_path collection_name doc in
      match FAISS_from_documents chunks with
      | inl e => (w, inl e)
      | inr vectorstore =>
          let faiss_index_path := "vector_stores/" ++ collection_name ++ "_faiss" in
          let w' :=
            mkWorld (files w)
              (<[string_of_list_ascii faiss_index_path := docstore vectorstore]>
                 (vector_stores w)) in
          let retriever1 := VectorStoreRetriever vectorstore in
          let retriever2 := TFIDFRetriever chunks in
          let hybrid_retriever :=
            mkEnsembleRetriever [retriever1; retriever2] [6; 4] in
          (w', inr (hybrid_retriever, vectorstore, chunk_docs))
      end
  end.

End IngestPdf.

(** ** [streamlit_app.py]: from the upload to the prompt's context *)

(** [meta.get(key, '?')] as an f-string writes it. *)
Definition get_or_question (meta : gmap string value) (key : string) : str :=
  format_value (default (VStr "?") (meta !! key)).

(** The citation tag of line 46. *)
Definition citation_tag (meta : gmap string value) : str :=
  "[Chapter: " ++ get_or_question meta "chapter"
  ++ " | Section: " ++ get_or_question meta "section"
  ++ " | Page: " ++ get_or_question meta "page_number" ++ "]".



Section StreamlitApp.

Variable split_text : str → list str.
Variable uuid4_hex : nat → str.



End StreamlitApp.

(** * Vocabulary of the properties *)

(** The chunk fields the claims speak about. *)
Definition chapter_of (d : Document) : option value := metadata d !! "chapter".
Definition section_of (d : Document) : option value := metadata d !! "section".
Definition chunk_id (d : Document) : option value := metadata d !! "chunk_id".

(** The page's heading is not a chapter heading: there is none, or it does not
    contain "chapter". *)
Definition no_chapter_heading (text : str) : Prop :=
  ∀ h, extract_heading text = Some h → contains "chapter" (lower h) = false.

(** [page_num] of line 65. *)
Definition page_num_of (d : Document) : value := dict_get (metadata d) "page".

(** A page number as a PDF loader assigns it: an [int], or absent. *)
Definition int_or_none (v : value) : Prop :=
  match v with
  | VStr _ => False
  | VNone | VInt _ => True
  end.

(** The characters [str] of an [int] is made of. *)
Definition decimal_char (c : ascii) : bool :=
  Char.is_digit c || Char.eq "-" c.

(** [r] matches wherever [s] does, position by position. *)
Definition covers (r s : regex) : Prop :=
  ∀ p q, q ∈ ends s p → q ∈ ends r p.

(** Two sub-chunks overlap by [n] characters: the last [n] characters of the
    first are the first [n] characters of the second. *)
Definition overlap_by (n : nat) (a b : str) : Prop :=
  n ≤ length a ∧ n ≤ length b ∧ drop (length a - n) a = take n b.

(** Every two consecutive chunks of a list overlap by [n] characters. *)
Definition consecutive_overlap (n : nat) (chunks : list str) : Prop :=
  ∀ i a b, chunks !! i = Some a → chunks !! S i = Some b → overlap_by n a b.

(** The single characters of a text, as the empty separator splits it. *)
Definition chars (text : str) : list str := (λ c, [c]) <$> text.

(** [chunk_docs] of a run, empty when the run failed. *)
Definition run_chunk_docs
    (r : world * (exception + (EnsembleRetriever * vectorstore * list Document)))
  : list Document :=
  match r.2 with
  | inr (_, _, chunk_docs) => chunk_docs
  | inl _ => []
  end.

Global Instance value_eq_dec : EqDecision value.
Proof. solve_decision. Defined.

Module RCTS := RecursiveCharacterTextSplitter.

(** ** Fixtures: a [uuid4] source that always returns the same value, and
    small documents. *)

Definition uuid_fixed : nat → str :=
  λ _, list_ascii_of_string "3f2b8c1d9e4a47b6a5d0c7e8f9a1b2c3".

Definition page (n : Z) (text : str) : Document :=
  mkDocument text (<["source" := VStr "temp/book.pdf"]> (<["page" := VInt n]> ∅)).

Definition lines (ls : list string) : str :=
  RecursiveCharacterTextSplitter.join [Char.newline] (list_ascii_of_string <$> ls).

Definition three_pages : list Document :=
  [ page 0 (lines ["Chapter 1"; "It was a dark night."]);
    page 1 "The story goes on.";
    page 2 (lines ["Chapter 2"; "Morning came."]) ].

Definition numbered_then_chapter : str :=
  lines ["1.2 Intro"; "Chapter 1"].

Definition section_then_plain : list Document :=
  [ page 0 (lines ["Section 2.1 Details"; "Some details."]);
    page 1 "No heading on this page." ].

Definition numbered_chapter_section : str :=
  "3.1 The Chapter on Section Headings".

Definition long_and_short_pages : list Document :=
  [ page 0 (repeat "a"%char 1500); page 1 "The story goes on." ].

Definition long_book : world :=
  mkWorld (λ path, if bool_decide (path = list_ascii_of_string "temp/long.pdf")
                   then Some (Pdf [repeat "a"%char 1500;
                                   list_ascii_of_string "The story goes on."])
                   else None)
          ∅.

Definition digits_1500 : str :=
  mjoin (replicate 150 (list_ascii_of_string "0123456789")).

Definition digits_pages : list Document :=
  [ page 0 digits_1500; page 1 "The story goes on." ].

(** The chunks of the first of these pages. *)
Definition digits_page_chunks : list Document :=
  default []
    (ingest_pages langchain_split uuid_fixed "temp/book.pdf" "book"
       initial_state digits_pages !! 0).

Definition two_paragraphs : str :=
  repeat "a"%char 900 ++ [Char.newline; Char.newline] ++ repeat "b"%char 900.

Definition blank_pages : list Document :=
  [ page 0 (repeat " "%char 1200); page 1 [" "%char; Char.newline; " "%char] ].

Definition one_book : world :=
  mkWorld (λ path, if bool_decide (path = list_ascii_of_string "temp/book.pdf")
                   then Some (Pdf [lines ["Chapter 1"; "It was a dark night."]])
                   else None)
          ∅.

Definition empty_book : world :=
  mkWorld (λ path, if bool_decide (path = list_ascii_of_string "temp/empty.pdf")
                   then Some (Pdf [])
                   else if bool_decide (path = list_ascii_of_string "temp/notes.txt")
                   then Some NotPdf
                   else None)
          ∅.

(** The collection name a run uses (lines 46-47) and the key its store is
    saved under (line 109). *)
Definition collection_name_of (pdf_path : str) (name : option str) : str :=
  match name with
  | None => splitext_root (basename pdf_path)
  | Some name => name
  end.

Definition store_key (pdf_path : str) (name : option str) : string :=
  string_of_list_ascii
    ("vector_stores/" ++ collection_name_of pdf_path name ++ "_faiss").


(** A [uuid4] source whose first eight digits count the calls. *)
Definition uuid_counting : nat → str :=
  λ n, str_of_Z (10000000 + Z.of_nat n) ++ repeat "0"%char 24.

Definition nth_chunk (chunks : list Document) (k : nat) : Document :=
  default (mkDocument [] ∅) (chunks !! k).

Definition plain_then_chapter : list Document :=
  [ page 0 "A preface without any heading.";
    page 1 (lines ["Chapter 1"; "It was a dark night."]) ].

(** The chunks of these two pages, in order. *)
Definition plain_then_chapter_chunks : list Document :=
  chunk_docs_of langchain_split uuid_fixed "temp/book.pdf" "book"
    plain_then_chapter.


(** ** Vocabulary of the matcher's properties *)

(** The character before the position reached by reading [x] from a position
    that [prev] precedes. *)
Definition last_or (prev : option ascii) (x : str) : option ascii :=
  if last x is Some c then Some c else prev.

(** Going from [p] to [q] reads [x]. *)
Definition reads (p : pos) (x : str) (q : pos) : Prop :=
  p.2 = x ++ q.2 ∧ q.1 = last_or p.1 x.

(** The length of the shortest text a pattern can match. *)
Fixpoint min_len (r : regex) : nat :=
  match r with
  | Cls _ => 1
  | Seq r1 r2 => min_len r1 + min_len r2
  | Alt r1 r2 => min_len r1 `min` min_len r2
  | Eps | Bol | Bos | Wordb | Star _ => 0
  end.

(** A pattern without [^] and [\b]: what it matches does not depend on the
    text around. *)
Fixpoint anchor_free (r : regex) : bool :=
  match r with
  | Eps | Cls _ => true
  | Bol | Bos | Wordb => false
  | Seq r1 r2 | Alt r1 r2 => anchor_free r1 && anchor_free r2
  | Star r1 => anchor_free r1
  end.

(** Every character class of a pattern lies within [P]. *)
Fixpoint classes_in (P : ascii → Prop) (r : regex) : Prop :=
  match r with
  | Cls f => ∀ c, f c = true → P c
  | Seq r1 r2 | Alt r1 r2 => classes_in P r1 ∧ classes_in P r2
  | Star r1 => classes_in P r1
  | Eps | Bol | Bos | Wordb => True
  end.

(** [r] matches at every position at which [s] does. *)
Definition matches_wherever (r s : regex) : Prop :=
  ∀ p, ends s p ≠ [] → ends r p ≠ [].

(** The patterns of HEADING_PATTERNS that can produce a heading. *)
Definition live_patterns : list regex :=
  [ pattern_chapter; pattern_section; pattern_numbered ].

(** A page whose numbered heading is not its first line. *)
Definition numbered_second_line : str :=
  lines ["Introduction"; "2.1 Methods"; "We proceed as follows."].

(** A pattern that ends with a greedy loop over one character class. *)
Fixpoint greedy_tail (f : ascii → bool) (r : regex) : Prop :=
  match r with
  | Star (Cls g) => g = f
  | Seq _ r2 => greedy_tail f r2
  | _ => False
  end.

(** [h] is a piece of [text] that begins where a line begins. *)
Definition at_line_begin (pre : str) : Prop :=
  pre = [] ∨ last pre = Some Char.newline.

(** What follows is the end of the text or a line break. *)
Definition at_line_end (post : str) : Prop :=
  post = [] ∨ head post = Some Char.newline.

(** A page with a section line above a chapter line. *)
Definition section_above_chapter : list Document :=
  [ page 0 (lines ["Section 1.1 Scope"; "chapter one: the start"; "Text."]) ].

(** The chunks of that page. *)
Definition section_above_chapter_chunks : list Document :=
  chunk_docs_of langchain_split uuid_fixed "temp/book.pdf" "book"
    section_above_chapter.



(** A page that begins with its page number on a line of its own. *)
Definition numbered_top_page : list Document :=
  [ page 0 (lines ["12"; "The harvest was late that year."; "Rain fell."]) ].

Definition numbered_top_page_chunks : list Document :=
  chunk_docs_of langchain_split uuid_fixed "temp/book.pdf" "book"
    numbered_top_page.

(** A text that neither begins nor ends with whitespace, and is not empty. *)
Definition trimmed (s : str) : Prop :=
  ∃ a b, head s = Some a ∧ last s = Some b ∧
         Char.is_space a = false ∧ Char.is_space b = false.

(** What the splitter makes of a text that fits one piece: the trimmed text,
    unless it is blank. *)
Definition one_piece (text : str) : list str :=
  if truthy (strip text) then [strip text] else [].

(** The documents of the store a run returns, and the documents its retriever
    searches; none when the run failed. *)
Definition run_docstore
    (r : world * (exception + (EnsembleRetriever * vectorstore * list Document)))
  : list Document :=
  match r.2 with
  | inr (_, vs, _) => docstore vs
  | inl _ => []
  end.


(** A scanned file: three pages without text. *)
Definition scanned_book : world :=
  mkWorld (λ path, if bool_decide (path = list_ascii_of_string "temp/scan.pdf")
                   then Some (Pdf [[]; list_ascii_of_string "  "; [Char.newline]])
                   else None)
          ∅.

(** A page with whitespace around its text. *)
Definition padded_page : list Document :=
  [ page 0 (lines ["  Chapter 1"; "It was a dark night.  "; ""]) ].

Definition padded_page_chunks : list Document :=
  chunk_docs_of langchain_split uuid_fixed "temp/book.pdf" "book" padded_page.

(** * Properties *)

(** ** Heading extraction *)

Section HeadingExtraction.

Implicit Types (r s : regex) (p q : pos) (text : str).

Lemma first_match_None patterns text :
  first_match patterns text = None ↔
  ∀ r, r ∈ patterns → search r text = None.
Proof.
  induction patterns as [|r0 patterns IH]; simpl.
  - split; [intros _ r Hr; inversion Hr | done].
  - destruct (search r0 text) as [m|] eqn:Hm.
    + split; [done|]. intros H. specialize (H r0 (list_elem_of_here _ _)).
      congruence.
    + rewrite IH. split.
      * intros H r [->|Hr]%elem_of_cons; auto.
      * intros H r Hr. apply H. by right.
Qed.

Lemma first_match_Some patterns text h :
  first_match patterns text = Some h ↔
  ∃ i r a, patterns !! i = Some r ∧ search r text = Some (a, h) ∧
           ∀ j r', j < i → patterns !! j = Some r' → search r' text = None.
Proof.
  induction patterns as [|r0 patterns IH]; simpl.
  - split; [done|]. by intros (i & r & a & Hi & _).
  - destruct (search r0 text) as [[a0 h0]|] eqn:Hm; simpl.
    + split.
      * intros [= <-]. exists 0, r0, a0. repeat split; [done|]. lia.
      * intros (i & r & a & Hi & Hs & Hlt). destruct i as [|i].
        -- simpl in Hi. injection Hi as <-. congruence.
        -- specialize (Hlt 0 r0 ltac:(lia) eq_refl). congruence.
    + rewrite IH. split.
      * intros (i & r & a & Hi & Hs & Hlt). exists (S i), r, a.
        repeat split; [done..|]. intros [|j] r' Hj Hr'; simpl in Hr'.
        -- by injection Hr' as <-.
        -- apply (Hlt j); [lia|done].
      * intros (i & r & a & Hi & Hs & Hlt). destruct i as [|i].
        -- simpl in Hi. injection Hi as <-. congruence.
        -- exists i, r, a. repeat split; [done..|]. intros j r' Hj Hr'.
           apply (Hlt (S j)); [lia|done].
Qed.

Lemma covers_refl r : covers r r.
Proof. by intros p q. Qed.

Lemma covers_Seq r1 r2 s1 s2 :
  covers r1 s1 → covers r2 s2 → covers (Seq r1 r2) (Seq s1 s2).
Proof.
  intros H1 H2 p q. simpl. rewrite !list_elem_of_bind.
  intros (m & Hq & Hm). exists m. split; [by apply H2 | by apply H1].
Qed.

Lemma covers_Cls (f g : ascii → bool) :
  (∀ c, g c = true → f c = true) → covers (Cls f) (Cls g).
Proof.
  intros Hfg [prev [|c rest]] q; simpl; [done|].
  destruct (g c) eqn:Hg; [|by inversion 1].
  by rewrite (Hfg c Hg).
Qed.

Lemma search_from_covers r s start start' prev rest :
  covers r s →
  is_Some (search_from s start prev rest) →
  is_Some (search_from r start' prev rest).
Proof.
  intros Hcov. revert start start' prev.
  induction rest as [|c rest IH]; intros start start' prev; simpl.
  - destruct (ends s (prev, [])) as [|e es] eqn:Hs; [by intros [? ?]|].
    intros _. assert (e ∈ ends r (prev, [])) as He.
    { apply Hcov. rewrite Hs. left. }
    destruct (ends r (prev, [])); [by inversion He | eauto].
  - destruct (ends s (prev, c :: rest)) as [|e es] eqn:Hs.
    + intros H. destruct (ends r (prev, c :: rest)); [by eapply IH | eauto].
    + intros _. assert (e ∈ ends r (prev, c :: rest)) as He.
      { apply Hcov. rewrite Hs. left. }
      destruct (ends r (prev, c :: rest)); [by inversion He | eauto].
Qed.

Lemma search_covers r s text :
  covers r s → is_Some (search s text) → is_Some (search r text).
Proof. apply search_from_covers. Qed.

Lemma letter_is_dot c : Char.is_letter c = true → Char.is_dot c = true.
Proof.
  unfold Char.is_letter, Char.is_upper, Char.is_lower, Char.is_dot,
    Char.is_newline, Char.between.
  generalize (Char.code c). intros n H.
  apply negb_true_iff, Nat.eqb_neq. intros ->. by vm_compute in H.
Qed.

Lemma numbered_covers_numbered_alpha :
  covers pattern_numbered pattern_numbered_alpha.
Proof.
  unfold pattern_numbered, pattern_numbered_alpha, Plus.
  repeat (apply covers_Seq; try apply covers_refl).
  apply covers_Cls, letter_is_dot.
Qed.

End HeadingExtraction.

(** ** The page loop *)

Lemma or_empty_Some s : or_empty (Some s) = s.
Proof. by destruct s. Qed.

Lemma contains_truthy w s : truthy w = true → contains w (lower s) = true → truthy s = true.
Proof. destruct s, w; simpl; try done. Qed.

Lemma tag_fragment_chapter h cur :
  contains "chapter" (lower h) = true →
  tag_fragment (Some h) cur = (Some h, None, Some h).
Proof.
  intros Hc. unfold tag_fragment.
  by rewrite (contains_truthy "chapter" h eq_refl Hc), Hc.
Qed.

Lemma tag_fragment_no_chapter heading cur :
  (∀ h, heading = Some h → contains "chapter" (lower h) = false) →
  ∃ section, tag_fragment heading cur = (cur, section, cur).
Proof.
  intros Hno. unfold tag_fragment. destruct heading as [h|]; [|by eexists].
  rewrite (Hno h eq_refl). destruct (truthy h); [|by eexists].
  destruct (contains "section" (lower h)); [by eexists|].
  destruct (re_match numbered_prefix h); by eexists.
Qed.

Lemma tag_fragment_section heading cur chapter section cur' :
  tag_fragment heading cur = (chapter, section, cur') →
  section = None ∨
  ∃ h, heading = Some h ∧ section = Some h ∧ h ≠ [] ∧
       contains "chapter" (lower h) = false ∧
       (contains "section" (lower h) = true
        ∨ is_Some (re_match numbered_prefix h)).
Proof.
  unfold tag_fragment. destruct heading as [h|]; [|intros [= <- <- <-]; by left].
  destruct (truthy h) eqn:Ht; [|intros [= <- <- <-]; by left].
  assert (h ≠ []) by (by destruct h).
  destruct (contains "chapter" (lower h)) eqn:Hc; [intros [= <- <- <-]; by left|].
  destruct (contains "section" (lower h)) eqn:Hs.
  { intros [= <- <- <-]. right. exists h. eauto 10. }
  destruct (re_match numbered_prefix h) eqn:Hn; intros [= <- <- <-].
  - right. exists h. eauto 10.
  - by left.
Qed.

Section PageLoop.

Variable split_text : str → list str.
Variable uuid4_hex : nat → str.
Variables pdf_path collection_name : str.

Abbreviation tag_chunks' := (tag_chunks uuid4_hex).
Abbreviation ingest_page' := (ingest_page split_text uuid4_hex pdf_path collection_name).
Abbreviation ingest_pages' := (ingest_pages split_text uuid4_hex pdf_path collection_name).

(** Every chunk the inner loop emits is the trimmed, non-empty form of one of
    the sub-chunks, tagged with that sub-chunk's index. *)
Lemma tag_chunks_elem meta sidx calls small_chunks d :
  d ∈ (tag_chunks' meta sidx calls small_chunks).2 →
  ∃ k piece n,
    small_chunks !! k = Some piece ∧
    page_content d = strip piece ∧ truthy (strip piece) = true ∧
    metadata d = meta (sidx + k) (uuid4_hex n).
Proof.
  revert sidx calls.
  induction small_chunks as [|piece rest IH]; intros sidx calls; simpl.
  - by inversion 1.
  - destruct (truthy (strip piece)) eqn:Ht.
    + destruct (tag_chunks' meta (S sidx) (S calls) rest) as [calls' ds] eqn:Hrec.
      simpl. intros [->|Hd]%elem_of_cons.
      * exists 0, piece, calls. by rewrite Nat.add_0_r.
      * specialize (IH (S sidx) (S calls)). rewrite Hrec in IH.
        destruct (IH Hd) as (k & piece' & n & Hk & Hp & Htr & Hm).
        exists (S k), piece', n. rewrite Hm. repeat split; [done..|].
        f_equal; lia.
    + intros Hd. destruct (IH (S sidx) calls Hd) as (k & piece' & n & Hk & Hp & Htr & Hm).
      exists (S k), piece', n. rewrite Hm. repeat split; [done..|].
      f_equal; lia.
Qed.

Lemma ingest_page_elem st page_doc chapter section cur' d :
  tag_fragment (extract_heading (page_content page_doc)) (current_chapter st)
    = (chapter, section, cur') →
  d ∈ (ingest_page' st page_doc).2 →
  ∃ k piece n,
    small_chunks_of split_text (page_content page_doc) !! k = Some piece ∧
    page_content d = strip piece ∧ truthy (strip piece) = true ∧
    metadata d =
      chunk_meta pdf_path collection_name chapter section
        (dict_get (metadata page_doc) "page") 0 k (uuid4_hex n).
Proof.
  intros Htag. unfold ingest_page. rewrite Htag.
  destruct (tag_chunks' _ 0 (uuid_calls st) _) as [calls' ds] eqn:Hds. simpl.
  intros Hd.
  pose proof (tag_chunks_elem
    (chunk_meta pdf_path collection_name chapter section
       (dict_get (metadata page_doc) "page") 0)
    0 (uuid_calls st) (small_chunks_of split_text (page_content page_doc)) d) as H.
  rewrite Hds in H. exact (H Hd).
Qed.

Lemma ingest_page_state st page_doc chapter section cur' :
  tag_fragment (extract_heading (page_content page_doc)) (current_chapter st)
    = (chapter, section, cur') →
  current_chapter (ingest_page' st page_doc).1 = cur'.
Proof.
  intros Htag. unfold ingest_page. rewrite Htag.
  by destruct (tag_chunks' _ 0 (uuid_calls st) _).
Qed.

Lemma ingest_pages_cons st page_doc doc :
  ingest_pages' st (page_doc :: doc) =
  (ingest_page' st page_doc).2 :: ingest_pages' (ingest_page' st page_doc).1 doc.
Proof. simpl. by destruct (ingest_page' st page_doc). Qed.

Lemma chunk_meta_chapter chapter section page_num frag_idx sidx u :
  chunk_meta pdf_path collection_name chapter section page_num frag_idx sidx u
    !! "chapter" = Some (VStr (or_empty chapter)).
Proof. unfold chunk_meta. by simplify_map_eq. Qed.

Lemma chunk_meta_section chapter section page_num frag_idx sidx u :
  chunk_meta pdf_path collection_name chapter section page_num frag_idx sidx u
    !! "section" = Some (VStr (or_empty section)).
Proof. unfold chunk_meta. by simplify_map_eq. Qed.

Lemma chunk_meta_chunk_id chapter section page_num frag_idx sidx u :
  chunk_meta pdf_path collection_name chapter section page_num frag_idx sidx u
    !! "chunk_id" =
  Some (VStr (chunk_id_of pdf_path page_num frag_idx sidx u)).
Proof. unfold chunk_meta. by simplify_map_eq. Qed.

(** While no chapter heading appears, the chapter in force is the one every
    chunk carries. *)
Lemma chapter_carried doc st i cs c h :
  current_chapter st = Some h →
  (∀ k dk, k ≤ i → doc !! k = Some dk → no_chapter_heading (page_content dk)) →
  ingest_pages' st doc !! i = Some cs → c ∈ cs →
  chapter_of c = Some (VStr h).
Proof.
  revert st i. induction doc as [|page_doc doc IH]; intros st i Hcur Hno; [done|].
  rewrite ingest_pages_cons.
  destruct (tag_fragment_no_chapter (extract_heading (page_content page_doc))
              (current_chapter st)) as [section Htag].
  { apply (Hno 0 page_doc); [lia|done]. }
  destruct i as [|i]; simpl.
  - intros [= <-] Hc.
    destruct (ingest_page_elem _ _ _ _ _ _ Htag Hc) as (k & piece & n & _ & _ & _ & Hm).
    unfold chapter_of. by rewrite Hm, chunk_meta_chapter, Hcur, or_empty_Some.
  - apply IH.
    + by rewrite (ingest_page_state _ _ _ _ _ Htag).
    + intros k dk Hk Hdk. apply (Hno (S k)); [lia|done].
Qed.

End PageLoop.

(** ** Claims about [extract_heading] *)

(** C5.  [extract_heading] returns [None] exactly when none of the five
    patterns matches anywhere in the text, and otherwise the span matched by
    the first pattern, in list order, that matches somewhere in the text.  In
    particular, when a pattern matches at offset [a] and a pattern later in
    the list matches at an earlier offset [b < a], the result is still the
    span of the earlier pattern, provided no pattern before it matches. *)
Theorem extract_heading_priority_over_position (text : str) :
  (extract_heading text = None ↔
     ∀ r, r ∈ HEADING_PATTERNS → search r text = None) ∧
  (∀ h, extract_heading text = Some h ↔
     ∃ i r a, HEADING_PATTERNS !! i = Some r ∧ search r text = Some (a, h) ∧
       ∀ j r', j < i → HEADING_PATTERNS !! j = Some r' → search r' text = None) ∧
  (∀ i j r r' a b h g,
     i < j →
     HEADING_PATTERNS !! i = Some r → HEADING_PATTERNS !! j = Some r' →
     search r text = Some (a, h) → search r' text = Some (b, g) →
     b < a →
     (∀ k q, k < i → HEADING_PATTERNS !! k = Some q → search q text = None) →
     extract_heading text = Some h).
Proof.
  unfold extract_heading. split; [apply first_match_None|].
  split; [intros h; apply first_match_Some|].
  intros i j r r' a b h g _ Hi _ Hr _ _ Hbefore.
  apply first_match_Some. by exists i, r, a.
Qed.

Lemma extract_heading_priority_over_position_witness :
  search pattern_numbered numbered_then_chapter
    = Some (0, list_ascii_of_string "1.2 Intro") ∧
  search pattern_chapter numbered_then_chapter
    = Some (10, list_ascii_of_string "Chapter 1") ∧
  extract_heading numbered_then_chapter
    = Some (list_ascii_of_string "Chapter 1").
Proof.
  split; [reflexivity|]. split; [reflexivity|].
  apply (proj2 (proj2 (extract_heading_priority_over_position
                         numbered_then_chapter))
           0 2 pattern_chapter pattern_numbered 10 0
           (list_ascii_of_string "Chapter 1")
           (list_ascii_of_string "1.2 Intro")).
  - lia.
  - reflexivity.
  - reflexivity.
  - reflexivity.
  - reflexivity.
  - lia.
  - intros k q Hk. lia.
Defined.

(** C9.  Wherever the stricter numbered-heading pattern (pattern 4) matches,
    the general one (pattern 3) matches too; so [extract_heading] never gets
    its result from pattern 4: it returns what it would return with pattern 4
    removed from the list. *)
Theorem numbered_alpha_is_dead (text : str) :
  (is_Some (search pattern_numbered_alpha text) →
   is_Some (search pattern_numbered text)) ∧
  (search pattern_chapter text = None → search pattern_section text = None →
   search pattern_numbered text = None →
   search pattern_numbered_alpha text = None) ∧
  extract_heading text =
    first_match [pattern_chapter; pattern_section; pattern_numbered;
                 pattern_link] text.
Proof.
  assert (is_Some (search pattern_numbered_alpha text) →
          is_Some (search pattern_numbered text)) as Hsub.
  { apply search_covers, numbered_covers_numbered_alpha. }
  assert (search pattern_numbered text = None →
          search pattern_numbered_alpha text = None) as Hdead.
  { intros Hn. destruct (search pattern_numbered_alpha text) eqn:H4; [|done].
    destruct Hsub as [m Hm]; [eauto | congruence]. }
  split; [done|]. split; [auto|].
  unfold extract_heading, HEADING_PATTERNS. simpl.
  destruct (search pattern_chapter text); [done|].
  destruct (search pattern_section text); [done|].
  destruct (search pattern_numbered text) eqn:H3; [done|].
  by rewrite (Hdead eq_refl).
Qed.

Lemma numbered_alpha_is_dead_witness :
  is_Some (search pattern_numbered (list_ascii_of_string "1.2 Intro")) ∧
  search pattern_numbered_alpha (list_ascii_of_string "plain words") = None.
Proof.
  split.
  - apply (proj1 (numbered_alpha_is_dead (list_ascii_of_string "1.2 Intro"))).
    vm_compute. eauto.
  - apply (proj1 (proj2 (numbered_alpha_is_dead
                           (list_ascii_of_string "plain words"))));
      reflexivity.
Defined.

(** ** Claims about the chapter and section tags *)

Section Tags.

Variable split_text : str → list str.
Variable uuid4_hex : nat → str.
Variables pdf_path collection_name : str.

Abbreviation pages_from := (ingest_pages split_text uuid4_hex pdf_path collection_name).

Lemma chapter_set_and_carried doc st j i dj h cs c :
  doc !! j = Some dj →
  extract_heading (page_content dj) = Some h →
  contains "chapter" (lower h) = true →
  j ≤ i →
  (∀ k dk, j < k ≤ i → doc !! k = Some dk →
           no_chapter_heading (page_content dk)) →
  pages_from st doc !! i = Some cs → c ∈ cs →
  chapter_of c = Some (VStr h).
Proof.
  revert st j i. induction doc as [|page_doc doc IH]; intros st j i Hj Hh Hc Hji Hno;
    [done|].
  rewrite ingest_pages_cons. destruct j as [|j].
  - injection Hj as ->.
    pose proof (tag_fragment_chapter h (current_chapter st) Hc) as Htag.
    rewrite <- Hh in Htag at 1. destruct i as [|i]; simpl.
    + intros [= <-] Hin.
      destruct (ingest_page_elem _ _ _ _ _ _ _ _ _ _ Htag Hin)
        as (k & piece & n & _ & _ & _ & Hm).
      unfold chapter_of. by rewrite Hm, chunk_meta_chapter, or_empty_Some.
    + apply chapter_carried.
      * by rewrite (ingest_page_state _ _ _ _ _ _ _ _ _ Htag).
      * intros k dk Hk Hdk. apply (Hno (S k)); [lia|done].
  - destruct i as [|i]; [lia|]. simpl. apply (IH _ j i); [done..|lia|].
    intros k dk Hk Hdk. apply (Hno (S k)); [lia|done].
Qed.

Lemma section_is_page_local doc st i d cs c :
  doc !! i = Some d →
  pages_from st doc !! i = Some cs → c ∈ cs →
  ∃ s, section_of c = Some (VStr s) ∧
       (s ≠ [] →
        extract_heading (page_content d) = Some s ∧
        contains "chapter" (lower s) = false ∧
        (contains "section" (lower s) = true
         ∨ is_Some (re_match numbered_prefix s))).
Proof.
  revert st i. induction doc as [|page_doc doc IH]; intros st i Hi; [done|].
  rewrite ingest_pages_cons. destruct i as [|i]; simpl; [|by apply IH].
  injection Hi as ->. intros [= <-] Hin.
  destruct (tag_fragment (extract_heading (page_content d)) (current_chapter st))
    as [[chapter section] cur'] eqn:Htag.
  destruct (ingest_page_elem _ _ _ _ _ _ _ _ _ _ Htag Hin)
    as (k & piece & n & _ & _ & _ & Hm).
  exists (or_empty section). unfold section_of.
  rewrite Hm, chunk_meta_section. split; [done|].
  destruct (tag_fragment_section _ _ _ _ _ Htag)
    as [->|(h & Hh & -> & Hne & Hc & Hs)]; [done|].
  rewrite or_empty_Some. by intros _.
Qed.

Lemma chapter_heading_wins doc st i d h cs c :
  doc !! i = Some d →
  extract_heading (page_content d) = Some h →
  contains "chapter" (lower h) = true →
  pages_from st doc !! i = Some cs → c ∈ cs →
  chapter_of c = Some (VStr h) ∧ section_of c = Some (VStr []).
Proof.
  revert st i. induction doc as [|page_doc doc IH]; intros st i Hi Hh Hc; [done|].
  rewrite ingest_pages_cons. destruct i as [|i]; simpl; [|by apply IH].
  injection Hi as ->. intros [= <-] Hin.
  pose proof (tag_fragment_chapter h (current_chapter st) Hc) as Htag.
  rewrite <- Hh in Htag at 1.
  destruct (ingest_page_elem _ _ _ _ _ _ _ _ _ _ Htag Hin)
    as (k & piece & n & _ & _ & _ & Hm).
  unfold chapter_of, section_of.
  by rewrite Hm, chunk_meta_chapter, chunk_meta_section, or_empty_Some.
Qed.

End Tags.

(** C2.  Chapter inheritance.  When page [j] has a heading that contains
    "chapter" (case-insensitively), the chunks of page [j], and of every later
    page [i] up to which no page has a chapter heading of its own, carry that
    heading as their chapter. *)
Theorem chapter_inheritance (split_text : str → list str) (uuid4_hex : nat → str)
    (pdf_path collection_name : str) (doc : list Document)
    (j i : nat) (dj : Document) (h : str) (cs : list Document) (c : Document) :
  doc !! j = Some dj →
  extract_heading (page_content dj) = Some h →
  contains "chapter" (lower h) = true →
  j ≤ i →
  (∀ k dk, j < k ≤ i → doc !! k = Some dk →
           no_chapter_heading (page_content dk)) →
  ingest_pages split_text uuid4_hex pdf_path collection_name initial_state doc
    !! i = Some cs →
  c ∈ cs →
  chapter_of c = Some (VStr h).
Proof. apply chapter_set_and_carried. Qed.

(** The three pages of the scenario: "Chapter 1", no heading, "Chapter 2";
    the second page yields one chunk and it carries "Chapter 1". *)
Lemma chapter_inheritance_witness :
  ∃ c, ingest_pages langchain_split uuid_fixed "temp/book.pdf" "book"
         initial_state three_pages !! 1 = Some [c] ∧
       chapter_of c = Some (VStr "Chapter 1").
Proof.
  eexists. split; [vm_compute; reflexivity|].
  eapply (chapter_inheritance langchain_split uuid_fixed "temp/book.pdf" "book"
            three_pages 0 1).
  - reflexivity.
  - vm_compute. reflexivity.
  - reflexivity.
  - lia.
  - intros k dk Hk Hdk. assert (k = 1) as -> by lia.
    injection Hdk as <-. intros h' Hh'. by vm_compute in Hh'.
  - vm_compute. reflexivity.
  - left.
Defined.

(** C8.  The section of a chunk is decided by its own page alone: it is empty,
    or it is that page's heading, and then the heading does not contain
    "chapter" and either contains "section" or starts with a dotted numeral
    followed by whitespace.  Nothing of an earlier page enters it. *)
Theorem section_page_local (split_text : str → list str) (uuid4_hex : nat → str)
    (pdf_path collection_name : str) (doc : list Document)
    (i : nat) (d : Document) (cs : list Document) (c : Document) :
  doc !! i = Some d →
  ingest_pages split_text uuid4_hex pdf_path collection_name initial_state doc
    !! i = Some cs →
  c ∈ cs →
  ∃ s, section_of c = Some (VStr s) ∧
       (s ≠ [] →
        extract_heading (page_content d) = Some s ∧
        contains "chapter" (lower s) = false ∧
        (contains "section" (lower s) = true
         ∨ is_Some (re_match numbered_prefix s))).
Proof. apply section_is_page_local. Qed.

(** A page with a section heading followed by a page without one: the second
    page's chunk has an empty section. *)
Lemma section_page_local_witness :
  ∃ c0 c1,
    ingest_pages langchain_split uuid_fixed "temp/book.pdf" "book"
      initial_state section_then_plain = [[c0]; [c1]] ∧
    section_of c0 = Some (VStr "Section 2.1 Details") ∧
    section_of c1 = Some (VStr []) ∧
    ∃ s, section_of c1 = Some (VStr s) ∧
         (s ≠ [] →
          extract_heading (list_ascii_of_string "No heading on this page.")
            = Some s ∧
          contains "chapter" (lower s) = false ∧
          (contains "section" (lower s) = true
           ∨ is_Some (re_match numbered_prefix s))).
Proof.
  eexists _, _. split; [vm_compute; reflexivity|].
  split; [reflexivity|]. split; [reflexivity|].
  eapply (section_page_local langchain_split uuid_fixed "temp/book.pdf" "book"
            section_then_plain 1 (page 1 "No heading on this page.")).
  - reflexivity.
  - vm_compute. reflexivity.
  - left.
Defined.

(** C10.  A heading that contains "chapter" (case-insensitively) is a chapter
    heading whatever else it contains: the page's chunks get the heading as
    chapter and the empty string as section. *)
Theorem chapter_before_section (split_text : str → list str) (uuid4_hex : nat → str)
    (pdf_path collection_name : str) (doc : list Document)
    (i : nat) (d : Document) (h : str) (cs : list Document) (c : Document) :
  doc !! i = Some d →
  extract_heading (page_content d) = Some h →
  contains "chapter" (lower h) = true →
  ingest_pages split_text uuid4_hex pdf_path collection_name initial_state doc
    !! i = Some cs →
  c ∈ cs →
  chapter_of c = Some (VStr h) ∧ section_of c = Some (VStr []).
Proof. apply chapter_heading_wins. Qed.

(** A heading that starts with a dotted numeral and contains both words. *)
Lemma chapter_before_section_witness :
  contains "section" (lower numbered_chapter_section) = true ∧
  is_Some (re_match numbered_prefix numbered_chapter_section) ∧
  ∃ c, ingest_pages langchain_split uuid_fixed "temp/book.pdf" "book"
         initial_state [page 0 numbered_chapter_section] = [[c]] ∧
       chapter_of c = Some (VStr numbered_chapter_section) ∧
       section_of c = Some (VStr []).
Proof.
  split; [reflexivity|]. split; [vm_compute; eauto|].
  eexists. split; [vm_compute; reflexivity|].
  eapply (chapter_before_section langchain_split uuid_fixed "temp/book.pdf" "book"
            [page 0 numbered_chapter_section] 0).
  - reflexivity.
  - vm_compute. reflexivity.
  - reflexivity.
  - vm_compute. reflexivity.
  - left.
Defined.

(** ** Chunk identifiers *)

Section Decimal.

Lemma string_of_uint_chars d :
  Forall (λ c, decimal_char c = true)
         (list_ascii_of_string (NilEmpty.string_of_uint d)).
Proof. induction d; simpl; by constructor. Qed.

Lemma string_of_uint_chars0 d :
  Forall (λ c, decimal_char c = true)
         (list_ascii_of_string (NilZero.string_of_uint d)).
Proof.
  unfold NilZero.string_of_uint.
  destruct d; try apply string_of_uint_chars. by constructor.
Qed.

Lemma str_of_nat_chars n : Forall (λ c, decimal_char c = true) (str_of_nat n).
Proof. apply string_of_uint_chars0. Qed.

Lemma str_of_Z_chars z : Forall (λ c, decimal_char c = true) (str_of_Z z).
Proof.
  unfold str_of_Z, NilZero.string_of_int.
  destruct (Z.to_int z); simpl; [apply string_of_uint_chars0|].
  constructor; [done | apply string_of_uint_chars0].
Qed.

Lemma decimal_char_not c (s : str) :
  Forall (λ c, decimal_char c = true) s → decimal_char c = false → c ∉ s.
Proof. rewrite Forall_forall. intros Hs Hc Hin. apply Hs in Hin. congruence. Qed.

Lemma list_ascii_of_string_inj s1 s2 :
  list_ascii_of_string s1 = list_ascii_of_string s2 → s1 = s2.
Proof.
  intros H. rewrite <- (string_of_list_ascii_of_string s1),
    <- (string_of_list_ascii_of_string s2). by rewrite H.
Qed.

Lemma str_of_nat_inj n m : str_of_nat n = str_of_nat m → n = m.
Proof.
  unfold str_of_nat. intros H%list_ascii_of_string_inj.
  assert (∀ k, Nat.of_uint <$> NilZero.uint_of_string
                 (NilZero.string_of_uint (Nat.to_uint k)) = Some k) as Hinv.
  { intros k. rewrite <- (DecimalNat.Unsigned.of_to k) at 2.
    destruct (Nat.to_uint k) eqn:Hd; [done|..];
      by rewrite NilZero.usu. }
  pose proof (Hinv n) as Hn. rewrite H, Hinv in Hn. by injection Hn.
Qed.

Lemma str_of_Z_inj n m : str_of_Z n = str_of_Z m → n = m.
Proof.
  unfold str_of_Z. intros H%list_ascii_of_string_inj.
  assert (∀ z, NilZero.int_of_string (NilZero.string_of_int (Z.to_int z))
               = Some (Z.to_int z)) as Hinv.
  { intros z. apply NilZero.isi; destruct z; simpl; try done;
      intros [= Hp]; by apply DecimalPos.Unsigned.to_uint_nonnil in Hp. }
  apply DecimalZ.to_int_inj.
  pose proof (Hinv n) as Hn. rewrite H, Hinv in Hn. by injection Hn.
Qed.

End Decimal.

Lemma format_value_no_underscore v :
  int_or_none v → "_"%char ∉ format_value v.
Proof.
  destruct v as [|z|s]; simpl; [|intros _|done].
  - intros _ Hin. by repeat (apply elem_of_cons in Hin as [Hin|Hin]; [done|]);
      inversion Hin.
  - by apply decimal_char_not; [apply str_of_Z_chars|].
Qed.

Lemma format_value_inj v1 v2 :
  int_or_none v1 → int_or_none v2 →
  format_value v1 = format_value v2 → v1 = v2.
Proof.
  assert (∀ z, list_ascii_of_string "None" ≠ str_of_Z z) as Hne.
  { intros z Hz.
    apply (decimal_char_not "N" (str_of_Z z) (str_of_Z_chars z)); [done|].
    rewrite <- Hz. left. }
  destruct v1 as [|z1|], v2 as [|z2|]; simpl; try done.
  - intros _ _ H. by apply Hne in H.
  - intros _ _ H. symmetry in H. by apply Hne in H.
  - intros _ _ H. f_equal. by apply str_of_Z_inj.
Qed.

Lemma app_underscore_inj (a b x y : str) :
  "_"%char ∉ a → "_"%char ∉ b →
  a ++ "_"%char :: x = b ++ "_"%char :: y → a = b ∧ x = y.
Proof.
  revert b. induction a as [|c a IH]; intros [|c' b] Ha Hb; simpl.
  - by intros [= ->].
  - intros [= <- _]. by apply not_elem_of_cons in Hb as [? _].
  - intros [= -> _]. by apply not_elem_of_cons in Ha as [? _].
  - intros [= -> H].
    apply not_elem_of_cons in Ha as [_ Ha]. apply not_elem_of_cons in Hb as [_ Hb].
    by destruct (IH b Ha Hb H) as [-> ->].
Qed.

(** The identifier determines the page number and the sub-chunk index, with
    no help from the random suffix. *)
Lemma chunk_id_of_inj pdf_path p1 p2 frag_idx s1 s2 u1 u2 :
  int_or_none p1 → int_or_none p2 →
  chunk_id_of pdf_path p1 frag_idx s1 u1 = chunk_id_of pdf_path p2 frag_idx s2 u2 →
  p1 = p2 ∧ s1 = s2.
Proof.
  intros Hp1 Hp2. unfold chunk_id_of. intros H%app_inv_head.
  simpl in H. injection H as H.
  apply app_underscore_inj in H as [Hp H];
    [|by apply format_value_no_underscore..].
  injection H as H. apply app_inv_head in H. simpl in H. injection H as H.
  apply app_underscore_inj in H as [Hs _].
  - split; [by apply format_value_inj | by apply str_of_nat_inj].
  - by apply decimal_char_not; [apply str_of_nat_chars|].
  - by apply decimal_char_not; [apply str_of_nat_chars|].
Qed.

Section ChunkIds.

Variable split_text : str → list str.
Variable uuid4_hex : nat → str.
Variables pdf_path collection_name : str.

Lemma tag_chunks_ids_NoDup meta sidx calls small_chunks :
  (∀ k1 k2 u1 u2,
     meta k1 u1 !! "chunk_id" = meta k2 u2 !! "chunk_id" → k1 = k2) →
  NoDup (chunk_id <$> (tag_chunks uuid4_hex meta sidx calls small_chunks).2).
Proof.
  intros Hinj. revert sidx calls.
  induction small_chunks as [|piece rest IH]; intros sidx calls; simpl;
    [constructor|].
  destruct (truthy (strip piece)); [|apply IH].
  specialize (IH (S sidx) (S calls)).
  pose proof (tag_chunks_elem uuid4_hex meta (S sidx) (S calls) rest) as Helem.
  destruct (tag_chunks uuid4_hex meta (S sidx) (S calls) rest) as [calls' ds].
  simpl in *. apply NoDup_cons. split; [|done].
  intros (d & Hid & Hd)%list_elem_of_fmap.
  destruct (Helem d Hd) as (k & _ & n & _ & _ & _ & Hm).
  unfold chunk_id in Hid. simpl in Hid. rewrite Hm in Hid.
  apply Hinj in Hid. lia.
Qed.

Lemma ingest_page_ids_NoDup st page_doc :
  int_or_none (page_num_of page_doc) →
  NoDup (chunk_id <$>
           (ingest_page split_text uuid4_hex pdf_path collection_name
                        st page_doc).2).
Proof.
  intros Hp. unfold ingest_page.
  destruct (tag_fragment _ _) as [[chapter section] cur'].
  pose proof (tag_chunks_ids_NoDup
    (chunk_meta pdf_path collection_name chapter section
       (dict_get (metadata page_doc) "page") 0)
    0 (uuid_calls st) (small_chunks_of split_text (page_content page_doc))) as H.
  unfold small_chunks_of in H.
  destruct (tag_chunks uuid4_hex _ 0 (uuid_calls st) _) as [calls' ds].
  simpl in *. apply H. intros k1 k2 u1 u2.
  rewrite !chunk_meta_chunk_id. intros [= Hid].
  by apply chunk_id_of_inj in Hid as [_ ?].
Qed.

(** The identifier of a chunk names the page it was cut from. *)
Lemma ingest_pages_id st doc c :
  c ∈ mjoin (ingest_pages split_text uuid4_hex pdf_path collection_name st doc) →
  ∃ d k u, d ∈ doc ∧
    chunk_id c = Some (VStr (chunk_id_of pdf_path (page_num_of d) 0 k u)).
Proof.
  revert st. induction doc as [|page_doc doc IH]; intros st; [by inversion 1|].
  rewrite ingest_pages_cons. simpl. intros [Hc|Hc]%elem_of_app.
  - destruct (tag_fragment (extract_heading (page_content page_doc))
                (current_chapter st)) as [[chapter section] cur'] eqn:Htag.
    destruct (ingest_page_elem _ _ _ _ _ _ _ _ _ _ Htag Hc)
      as (k & piece & n & _ & _ & _ & Hm).
    exists page_doc, k, (uuid4_hex n). split; [left|].
    unfold chunk_id. by rewrite Hm, chunk_meta_chunk_id.
  - destruct (IH _ Hc) as (d & k & u & Hd & Hid).
    exists d, k, u. split; [by right | done].
Qed.

Lemma chunk_ids_NoDup st doc :
  Forall (λ d, int_or_none (page_num_of d)) doc →
  NoDup (page_num_of <$> doc) →
  NoDup (chunk_id <$>
           mjoin (ingest_pages split_text uuid4_hex pdf_path collection_name
                                st doc)).
Proof.
  revert st. induction doc as [|page_doc doc IH]; intros st Hint Hnd;
    [constructor|].
  rewrite ingest_pages_cons. simpl. rewrite fmap_app.
  apply Forall_cons in Hint as [Hp Hint].
  rewrite fmap_cons in Hnd. apply NoDup_cons in Hnd as [Hfresh Hnd].
  apply NoDup_app. split; [by apply ingest_page_ids_NoDup|].
  split; [|by apply IH].
  intros x (c & -> & Hc)%list_elem_of_fmap (c' & Hid & Hc')%list_elem_of_fmap.
  destruct (ingest_pages_id st [page_doc] c) as (d & k & u & Hd & Hcid).
  { rewrite ingest_pages_cons. simpl. by rewrite app_nil_r. }
  apply list_elem_of_singleton in Hd as ->.
  destruct (ingest_pages_id _ _ _ Hc') as (d' & k' & u' & Hd' & Hcid').
  rewrite Hcid, Hcid' in Hid. injection Hid as Hid.
  apply chunk_id_of_inj in Hid as [Hpage _]; [|done|].
  - apply Hfresh. rewrite Hpage. by apply list_elem_of_fmap_2.
  - rewrite Forall_forall in Hint. by apply Hint.
Qed.

End ChunkIds.

Lemma PyPDFLoader_load_pages fs pdf_path doc :
  PyPDFLoader_load fs pdf_path = inr doc →
  ∀ i d, doc !! i = Some d → page_num_of d = VInt (Z.of_nat i).
Proof.
  unfold PyPDFLoader_load. destruct (fs pdf_path) as [[|pages]|]; try done.
  intros [= <-] i d Hi. rewrite list_lookup_imap in Hi.
  destruct (pages !! i) as [text|]; [|done]. injection Hi as <-.
  unfold page_num_of, dict_get. simpl. by simplify_map_eq.
Qed.

(** The documents of a loaded PDF carry pairwise distinct integer page
    numbers. *)
Lemma PyPDFLoader_load_numbered fs pdf_path doc :
  PyPDFLoader_load fs pdf_path = inr doc →
  Forall (λ d, int_or_none (page_num_of d)) doc ∧ NoDup (page_num_of <$> doc).
Proof.
  intros Hload. pose proof (PyPDFLoader_load_pages _ _ _ Hload) as Hpages. split.
  - apply Forall_forall. intros d (i & Hi)%list_elem_of_lookup.
    by rewrite (Hpages i d Hi).
  - apply NoDup_alt. intros i j v Hi Hj.
    rewrite list_lookup_fmap in Hi, Hj.
    destruct (doc !! i) as [di|] eqn:Hdi; [|done].
    destruct (doc !! j) as [dj|] eqn:Hdj; [|done].
    simpl in Hi, Hj. rewrite (Hpages i di Hdi) in Hi. rewrite (Hpages j dj Hdj) in Hj.
    injection Hi as <-. injection Hj as Hj. lia.
Qed.

(** C3.  Within one ingestion run no two chunks share a [chunk_id], whatever
    [uuid4] returns: every chunk has an identifier, and the file name, the
    page index and the sub-chunk index in it already tell any two chunks of
    the run apart. *)
Theorem chunk_id_unique (split_text : str → list str) (uuid4_hex : nat → str)
    (pdf_path : str) (name : option str) (w w' : world)
    (h : EnsembleRetriever) (vs : vectorstore) (cds : list Document) :
  ingest_pdf_to_vectordb split_text uuid4_hex pdf_path name w
    = (w', inr (h, vs, cds)) →
  Forall (λ c, ∃ id, chunk_id c = Some (VStr id)) cds ∧
  NoDup (chunk_id <$> cds).
Proof.
  unfold ingest_pdf_to_vectordb.
  destruct (PyPDFLoader_load (files w) pdf_path) as [e|doc] eqn:Hload; [done|].
  destruct (FAISS_from_documents _) as [e|vs0]; [done|].
  intros [= <- <- <- <-]. split.
  - apply Forall_forall. intros c Hc.
    destruct (ingest_pages_id _ _ _ _ _ _ _ Hc) as (d & k & u & _ & Hid). eauto.
  - apply PyPDFLoader_load_numbered in Hload as [Hint Hnd].
    by apply chunk_ids_NoDup.
Qed.

(** A book with a page cut in two and a page kept whole, ingested with the
    same random suffix for every chunk. *)
Lemma chunk_id_unique_witness :
  chunk_id <$> run_chunk_docs
    (ingest_pdf_to_vectordb langchain_split uuid_fixed "temp/long.pdf" None long_book)
  = [ Some (VStr "long.pdf_p0_f0_s0_3f2b8c1d");
      Some (VStr "long.pdf_p0_f0_s1_3f2b8c1d");
      Some (VStr "long.pdf_p1_f0_s0_3f2b8c1d") ] ∧
  NoDup (chunk_id <$> run_chunk_docs
    (ingest_pdf_to_vectordb langchain_split uuid_fixed "temp/long.pdf" None long_book)).
Proof.
  split; [vm_compute; reflexivity|].
  destruct (ingest_pdf_to_vectordb langchain_split uuid_fixed "temp/long.pdf" None
              long_book) as [w' [e|[[h vs] cds]]] eqn:Hrun.
  - vm_compute in Hrun. discriminate Hrun.
  - exact (proj2 (chunk_id_unique _ _ _ _ _ _ _ _ _ Hrun)).
Defined.

(** ** Trimming *)

Lemma lstrip_length s : length (lstrip s) ≤ length s.
Proof. induction s as [|c s IH]; simpl; [done|]. destruct (Char.is_space c); simpl; lia. Qed.

Lemma lstrip_elem c s : c ∈ lstrip s → c ∈ s.
Proof.
  induction s as [|a s IH]; simpl; [done|].
  destruct (Char.is_space a); [|done]. intros H. right. auto.
Qed.

Lemma lstrip_blank s : forallb Char.is_space s = true → lstrip s = [].
Proof.
  induction s as [|c s IH]; simpl; [done|].
  intros [Hc Hs]%andb_true_iff. rewrite Hc. auto.
Qed.

Lemma strip_length s : length (strip s) ≤ length s.
Proof.
  unfold strip, rstrip. rewrite length_reverse.
  etrans; [apply lstrip_length|]. rewrite length_reverse. apply lstrip_length.
Qed.

Lemma strip_elem c s : c ∈ strip s → c ∈ s.
Proof.
  unfold strip, rstrip. rewrite elem_of_reverse.
  intros H%lstrip_elem. rewrite elem_of_reverse in H. by apply lstrip_elem.
Qed.

Lemma strip_blank s : forallb Char.is_space s = true → strip s = [].
Proof. intros H. unfold strip. by rewrite (lstrip_blank s H). Qed.

Lemma forallb_elem (f : ascii → bool) (s : str) :
  forallb f s = true ↔ ∀ c, c ∈ s → f c = true.
Proof.
  induction s as [|a s IH]; simpl.
  - split; [by inversion 2 | done].
  - rewrite andb_true_iff, IH. split.
    + intros [Ha Hs] c [->|Hc]%elem_of_cons; auto.
    + intros H. split; [apply H; left | intros c Hc; apply H; by right].
Qed.

Lemma truthy_nonempty s : truthy s = true ↔ s ≠ [].
Proof. by destruct s. Qed.

(** ** The splitter model: piece lengths and piece characters *)

Section SplitterFacts.

Variables chunk_size chunk_overlap : nat.

Abbreviation total_length docs := (length (mjoin docs)).

Lemma if_same {A} (b : bool) (x : A) : (if b then x else x) = x.
Proof. by destruct b. Qed.

Lemma join_empty_separator (docs : list str) : RCTS.join [] docs = mjoin docs.
Proof.
  induction docs as [|d [|d' docs] IH]; simpl in *; [done| |].
  - by rewrite app_nil_r.
  - by rewrite IH.
Qed.

Lemma join_docs_length docs text :
  RCTS.join_docs docs [] = Some text → length text ≤ total_length docs.
Proof.
  unfold RCTS.join_docs. rewrite join_empty_separator.
  destruct (truthy _); [|done]. intros [= <-]. apply strip_length.
Qed.

Lemma join_docs_elem docs text c :
  RCTS.join_docs docs [] = Some text → c ∈ text → ∃ d, d ∈ docs ∧ c ∈ d.
Proof.
  unfold RCTS.join_docs. rewrite join_empty_separator.
  destruct (truthy _); [|done]. intros [= <-] Hc%strip_elem.
  apply list_elem_of_join in Hc as (d & Hc & Hd). eauto.
Qed.

(** The pieces left by [pop_front] are a tail of the pieces it was given;
    their total length is what the loop computed, and the next piece fits
    beside them. *)
Lemma pop_front_spec len total current_doc total' current_doc' :
  total = total_length current_doc →
  RCTS.pop_front chunk_size chunk_overlap 0 len total current_doc
    = (total', current_doc') →
  total' = total_length current_doc' ∧
  current_doc' `suffix_of` current_doc ∧
  (total' + len ≤ chunk_size ∨ total' = 0).
Proof.
  revert total. induction current_doc as [|d0 rest IH]; intros total Htot; simpl.
  - intros [= <- <-]. simpl in Htot. split; [done|]. split; [done|]. by right.
  - case_bool_decide as Hov; simpl.
    + intros Hpop. apply IH in Hpop as (? & ? & ?).
      * split; [done|]. split; [by apply suffix_cons_r | done].
      * rewrite Htot. simpl. rewrite length_app.
        destruct (bool_decide (1 < S (length rest))); lia.
    + case_bool_decide as Hsz; simpl.
      * case_bool_decide as Hpos; simpl.
        -- intros Hpop. apply IH in Hpop as (? & ? & ?).
           ++ split; [done|]. split; [by apply suffix_cons_r | done].
           ++ rewrite Htot. simpl. rewrite length_app.
              destruct (bool_decide (1 < S (length rest))); lia.
        -- intros [= <- <-]. split; [done|]. split; [done|]. right. lia.
      * intros [= <- <-]. split; [done|]. split; [done|]. left. lia.
Qed.

(** One iteration of [merge_loop] when pieces are joined without separator. *)
Lemma merge_loop_step d splits docs current_doc total :
  RCTS.merge_loop chunk_size chunk_overlap [] (d :: splits) docs current_doc total
  = if bool_decide (chunk_size < total + length d)
       && bool_decide (0 < length current_doc)
    then
      let popped :=
        RCTS.pop_front chunk_size chunk_overlap 0 (length d) total current_doc in
      RCTS.merge_loop chunk_size chunk_overlap [] splits
        (docs ++ option_list (RCTS.join_docs current_doc []))
        (popped.2 ++ [d]) (popped.1 + length d)
    else
      RCTS.merge_loop chunk_size chunk_overlap [] splits docs
        (current_doc ++ [d]) (total + length d).
Proof.
  simpl. destruct (bool_decide (0 < length current_doc)); simpl;
    rewrite !Nat.add_0_r.
  - destruct (bool_decide (chunk_size < total + length d)); simpl.
    + destruct (RCTS.pop_front _ _ _ _ _ _) as [total' current_doc']; simpl.
      by rewrite if_same, Nat.add_0_r.
    + by rewrite if_same, Nat.add_0_r.
  - rewrite andb_false_r. by rewrite if_same, Nat.add_0_r.
Qed.

Lemma merge_loop_bound splits docs current_doc total piece :
  Forall (λ s, length s ≤ chunk_size) splits →
  Forall (λ s, length s ≤ chunk_size) docs →
  total = total_length current_doc → total ≤ chunk_size →
  piece ∈ RCTS.merge_loop chunk_size chunk_overlap [] splits docs current_doc total →
  length piece ≤ chunk_size.
Proof.
  revert docs current_doc total.
  induction splits as [|d splits IH]; intros docs current_doc total Hs Hdocs Htot Hle;
    simpl.
  - intros [Hp|Hp]%elem_of_app.
    + rewrite Forall_forall in Hdocs. by apply Hdocs.
    + destruct (RCTS.join_docs current_doc []) as [text|] eqn:Hj; [|by inversion Hp].
      apply list_elem_of_singleton in Hp as ->.
      apply join_docs_length in Hj. lia.
  - apply Forall_cons in Hs as [Hd Hs].
    rewrite if_same.
    destruct (bool_decide (chunk_size < total + length d + 0)
              && bool_decide (0 < length current_doc)) eqn:Hcond.
    + apply andb_true_iff in Hcond as [_ Hne].
      destruct (RCTS.pop_front chunk_size chunk_overlap 0 (length d) total current_doc)
        as [total' current_doc'] eqn:Hpop.
      apply (pop_front_spec _ _ _ _ _ Htot) in Hpop as (Htot' & _ & Hfit).
      rewrite if_same.
      apply IH; [done| | |].
      * apply Forall_app. split; [done|].
        destruct (RCTS.join_docs current_doc []) as [text|] eqn:Hj; [|constructor].
        apply join_docs_length in Hj. repeat constructor. lia.
      * rewrite join_app, length_app. simpl. rewrite app_nil_r. lia.
      * lia.
    + rewrite if_same. apply IH; [done|done| |].
      * rewrite join_app, length_app. simpl. rewrite app_nil_r. lia.
      * apply andb_false_iff in Hcond as [Hc|Hc];
          apply bool_decide_eq_false in Hc; [lia|].
        destruct current_doc; [|simpl in Hc; lia]. simpl in Htot. lia.
Qed.

Lemma merge_loop_elem (P : ascii → Prop) splits docs current_doc total piece :
  Forall (Forall P) splits → Forall (Forall P) docs → Forall (Forall P) current_doc →
  piece ∈ RCTS.merge_loop chunk_size chunk_overlap [] splits docs current_doc total →
  Forall P piece.
Proof.
  assert (∀ cur text, Forall (Forall P) cur →
            RCTS.join_docs cur [] = Some text → Forall P text) as Hjoin.
  { intros cur text Hcur Hj. apply Forall_forall. intros c Hc.
    destruct (join_docs_elem _ _ _ Hj Hc) as (d & Hd & Hcd).
    rewrite Forall_forall in Hcur. specialize (Hcur d Hd).
    rewrite Forall_forall in Hcur. by apply Hcur. }
  assert (∀ cur docs0, Forall (Forall P) cur → Forall (Forall P) docs0 →
            Forall (Forall P) (docs0 ++ option_list (RCTS.join_docs cur [])))
    as Hflush.
  { intros cur docs0 Hcur Hdocs0. apply Forall_app. split; [done|].
    destruct (RCTS.join_docs cur []) as [text|] eqn:Hj; [|constructor].
    apply Forall_singleton. by apply (Hjoin cur). }
  revert docs current_doc total.
  induction splits as [|d splits IH]; intros docs current_doc total Hs Hdocs Hcur;
    simpl.
  - intros Hp. specialize (Hflush _ _ Hcur Hdocs).
    rewrite Forall_forall in Hflush. by apply Hflush.
  - apply Forall_cons in Hs as [Hd Hs].
    destruct (bool_decide _ && bool_decide (0 < length current_doc)).
    + destruct (RCTS.pop_front chunk_size chunk_overlap 0 (length d) total current_doc)
        as [total' current_doc'] eqn:Hpop.
      assert (current_doc' `suffix_of` current_doc) as [pre Hsuf].
      { clear -Hpop. revert total Hpop.
        induction current_doc as [|d0 rest IHc]; intros total; simpl.
        - by intros [= <- <-].
        - destruct (_ || _); [|by intros [= <- <-]].
          intros Hpop%IHc. by apply suffix_cons_r. }
      apply IH; [done|by apply Hflush|].
      apply Forall_app. split; [|by apply Forall_singleton].
      rewrite Hsuf in Hcur. by apply Forall_app in Hcur as [_ ?].
    + apply IH; [done|done|]. apply Forall_app. split; [done|by apply Forall_singleton].
Qed.

Lemma split_keep_elem (P : ascii → Prop) sep skip acc text piece :
  Forall P acc → Forall P text →
  piece ∈ RCTS.split_keep sep skip acc text → Forall P piece.
Proof.
  revert skip acc. induction text as [|c text IH]; intros skip acc Hacc Htext; simpl.
  - intros ->%list_elem_of_singleton. by apply Forall_reverse.
  - apply Forall_cons in Htext as [Hc Htext]. destruct skip as [|k].
    + destruct (startswith sep (c :: text)).
      * intros [->|Hp]%elem_of_cons; [by apply Forall_reverse|].
        apply IH in Hp; [done| |done]. by apply Forall_singleton.
      * apply IH; [|done]. by constructor.
    + apply IH; [|done]. by constructor.
Qed.

Lemma split_text_with_regex_elem (P : ascii → Prop) text separator :
  Forall P text →
  Forall (Forall P) (RCTS.split_text_with_regex text separator).
Proof.
  intros Htext. unfold RCTS.split_text_with_regex.
  apply Forall_forall. intros piece [_ Hp]%list_elem_of_filter.
  destruct (truthy separator).
  - by apply (split_keep_elem P separator 0 [] text).
  - apply list_elem_of_fmap in Hp as (c & -> & Hc).
    apply Forall_singleton. rewrite Forall_forall in Htext. by apply Htext.
Qed.

Lemma split_text_with_regex_chars text :
  Forall (λ s, length s = 1) (RCTS.split_text_with_regex text []).
Proof.
  unfold RCTS.split_text_with_regex. simpl.
  apply Forall_forall. intros piece [_ Hp]%list_elem_of_filter.
  by apply list_elem_of_fmap in Hp as (c & -> & Hc).
Qed.

(** The loop of [_split_text], for a property [G] of the short pieces that
    makes every merged piece satisfy [Q]. *)
Lemma split_loop_inv (G Q : str → Prop) recur splits good_splits piece :
  (∀ good, Forall G good →
     Forall Q (RCTS.merge_splits chunk_size chunk_overlap good [])) →
  Forall G good_splits →
  Forall (λ s, (length s < chunk_size → G s) ∧
               (¬ length s < chunk_size →
                match recur with
                | None => Q s
                | Some again => Forall Q (again s)
                end)) splits →
  piece ∈ RCTS.split_loop chunk_size chunk_overlap recur splits good_splits →
  Q piece.
Proof.
  intros Hmerge.
  assert (∀ good, Forall G good →
            Forall Q (RCTS.flush chunk_size chunk_overlap good)) as Hflush.
  { intros good Hgood. unfold RCTS.flush. case_bool_decide; [constructor|auto]. }
  revert good_splits. induction splits as [|s splits IH]; intros good Hgood Hs; simpl.
  - intros Hp. specialize (Hflush _ Hgood). rewrite Forall_forall in Hflush. auto.
  - apply Forall_cons in Hs as [[Hshort Hlong] Hs]. case_bool_decide as Hlen.
    + apply IH; [|done]. apply Forall_app. split; [done|].
      apply Forall_singleton. auto.
    + intros [Hp|[Hp|Hp]%elem_of_app]%elem_of_app.
      * specialize (Hflush _ Hgood). rewrite Forall_forall in Hflush. auto.
      * specialize (Hlong Hlen). destruct recur as [again|].
        -- rewrite Forall_forall in Hlong. auto.
        -- by apply list_elem_of_singleton in Hp as ->.
      * by apply (IH []).
Qed.

Lemma split_text_with_elem separators text piece c :
  piece ∈ RCTS.split_text_with chunk_size chunk_overlap separators text →
  c ∈ piece → c ∈ text.
Proof.
  intros Hp Hc.
  cut (Forall (λ a, a ∈ text) piece).
  { rewrite Forall_forall. auto. }
  clear c Hc. revert text piece Hp.
  induction separators as [|s rest IH]; intros text piece; simpl; [by inversion 1|].
  assert (∀ recur,
    match recur with
    | None => True
    | Some again => ∀ t p, p ∈ again t → Forall (λ a, a ∈ t) p
    end →
    piece ∈ RCTS.split_loop chunk_size chunk_overlap recur
              (RCTS.split_text_with_regex text s) [] →
    Forall (λ a, a ∈ text) piece) as Hloop.
  { intros recur Hrecur.
    apply (split_loop_inv (Forall (λ a, a ∈ text)) (Forall (λ a, a ∈ text))).
    - intros good Hgood. apply Forall_forall. intros p Hp.
      eapply (merge_loop_elem (λ a, a ∈ text)); [exact Hgood|constructor..|exact Hp].
    - constructor.
    - pose proof (split_text_with_regex_elem (λ a, a ∈ text) text s) as Hsplits.
      eapply Forall_impl; [apply Hsplits; by apply Forall_forall|].
      intros p Hp. split; [done|]. intros _. destruct recur as [again|]; [|done].
      apply Forall_forall. intros q Hq. specialize (Hrecur p q Hq).
      rewrite Forall_forall in Hrecur, Hp |- *. auto. }
  destruct (negb (truthy s)); [by apply (Hloop None)|].
  destruct (contains s text).
  - case_bool_decide; [by apply (Hloop None)|].
    apply (Hloop (Some _)). intros t p. apply IH.
  - case_bool_decide; [by apply (Hloop None)|]. apply IH.
Qed.

Lemma split_text_with_bound separators text piece :
  1 < chunk_size → last separators = Some [] →
  piece ∈ RCTS.split_text_with chunk_size chunk_overlap separators text →
  length piece ≤ chunk_size.
Proof.
  intros Hsize. revert text piece.
  induction separators as [|s rest IH]; intros text piece Hlast; simpl;
    [by inversion 1|].
  assert (∀ recur,
    match recur with
    | None => s = []
    | Some again => ∀ t p, p ∈ again t → length p ≤ chunk_size
    end →
    piece ∈ RCTS.split_loop chunk_size chunk_overlap recur
              (RCTS.split_text_with_regex text s) [] →
    length piece ≤ chunk_size) as Hloop.
  { intros recur Hrecur.
    apply (split_loop_inv (λ p, length p ≤ chunk_size) (λ p, length p ≤ chunk_size)).
    - intros good Hgood. apply Forall_forall. intros p Hp.
      eapply (merge_loop_bound good [] [] 0);
        [done|constructor|done|lia|exact Hp].
    - constructor.
    - destruct recur as [again|].
      + apply Forall_forall. intros p _. split; [lia|]. intros _.
        apply Forall_forall. intros q. apply Hrecur.
      + subst s. eapply Forall_impl; [apply split_text_with_regex_chars|].
        simpl. intros p Hp. split; lia. }
  destruct s as [|a s]; simpl; [by apply (Hloop None)|].
  assert (rest ≠ []) as Hrest by (by intros ->).
  assert (last rest = Some []) as Hlast'.
  { destruct rest; [done|]. by rewrite last_cons_cons in Hlast. }
  rewrite !(bool_decide_eq_false_2 (rest = [])) by done.
  destruct (contains (a :: s) text); [|by apply IH].
  apply (Hloop (Some _)). intros t p. by apply IH.
Qed.

End SplitterFacts.

(** The splitter of line 57 returns pieces of at most 1000 characters, made
    of characters of the text it is given. *)
Lemma langchain_split_bound text piece :
  piece ∈ langchain_split text → length piece ≤ 1000.
Proof. apply split_text_with_bound; [lia|done]. Qed.

Lemma langchain_split_elem text piece c :
  piece ∈ langchain_split text → c ∈ piece → c ∈ text.
Proof. apply split_text_with_elem. Qed.

(** ** Hard cuts: a text without whitespace *)

Lemma contains_head_elem a w text : contains (a :: w) text = true → a ∈ text.
Proof.
  induction text as [|c text IH]; simpl; [done|].
  intros [H|H]%orb_true_iff.
  - apply andb_true_iff in H as [H _]. apply bool_decide_eq_true in H as ->. left.
  - right. auto.
Qed.

Lemma lstrip_id s : Forall (λ c, Char.is_space c = false) s → lstrip s = s.
Proof. destruct 1 as [|c s Hc _]; simpl; [done|]. by rewrite Hc. Qed.

Lemma strip_id s : Forall (λ c, Char.is_space c = false) s → strip s = s.
Proof.
  intros Hs. unfold strip, rstrip. rewrite (lstrip_id s Hs).
  rewrite lstrip_id by (by apply Forall_reverse). apply reverse_involutive.
Qed.

Lemma mjoin_chars text : mjoin (chars text) = text.
Proof. induction text as [|c text IH]; simpl; [done|]. by rewrite IH. Qed.

Lemma join_docs_chars text :
  text ≠ [] → Forall (λ c, Char.is_space c = false) text →
  RCTS.join_docs (chars text) [] = Some text.
Proof.
  intros Hne Hs. unfold RCTS.join_docs.
  rewrite join_empty_separator, mjoin_chars, (strip_id text Hs).
  by destruct text.
Qed.

Lemma split_text_with_regex_empty text :
  RCTS.split_text_with_regex text [] = chars text.
Proof.
  unfold RCTS.split_text_with_regex, chars. simpl.
  induction text as [|c text IH]; [done|].
  rewrite fmap_cons, filter_cons_True by done. by rewrite IH.
Qed.

Section HardCut.

Variables chunk_size chunk_overlap : nat.
Hypothesis overlap_lt_size : chunk_overlap < chunk_size.

Lemma pop_front_chars cur :
  RCTS.pop_front chunk_size chunk_overlap 0 1 (length cur) (chars cur)
  = (min chunk_overlap (length cur), chars (drop (length cur - chunk_overlap) cur)).
Proof.
  induction cur as [|c cur IH]; simpl; [by rewrite Nat.min_0_r|].
  case_bool_decide as Hov; simpl.
  - rewrite if_same, Nat.sub_0_r, IH.
    replace (S (length cur) - chunk_overlap) with (S (length cur - chunk_overlap))
      by lia.
    simpl. f_equal. lia.
  - rewrite bool_decide_eq_false_2 by lia. simpl.
    replace (S (length cur) - chunk_overlap) with 0 by lia. simpl.
    f_equal. lia.
Qed.

(** Merging single characters: each piece emitted starts with the last
    [chunk_overlap] characters of the piece before it. *)
Lemma merge_chars_overlap rest docs cur :
  Forall (λ c, Char.is_space c = false) cur →
  Forall (λ c, Char.is_space c = false) rest →
  length cur ≤ chunk_size →
  consecutive_overlap chunk_overlap docs →
  Forall (λ p, p ≠ [] ∧ Forall (λ c, Char.is_space c = false) p) docs →
  (∀ l, last docs = Some l →
        chunk_overlap ≤ length l ∧ chunk_overlap ≤ length cur ∧
        drop (length l - chunk_overlap) l = take chunk_overlap cur) →
  consecutive_overlap chunk_overlap
    (RCTS.merge_loop chunk_size chunk_overlap [] (chars rest) docs (chars cur)
       (length cur)) ∧
  Forall (λ p, p ≠ [] ∧ Forall (λ c, Char.is_space c = false) p)
    (RCTS.merge_loop chunk_size chunk_overlap [] (chars rest) docs (chars cur)
       (length cur)).
Proof.
  assert (∀ docs0 cur0,
    cur0 ≠ [] →
    consecutive_overlap chunk_overlap docs0 →
    (∀ l, last docs0 = Some l →
          chunk_overlap ≤ length l ∧ chunk_overlap ≤ length cur0 ∧
          drop (length l - chunk_overlap) l = take chunk_overlap cur0) →
    consecutive_overlap chunk_overlap (docs0 ++ [cur0])) as Hsnoc.
  { intros docs0 cur0 Hne Hadj Hlast i a b Ha Hb.
    destruct (decide (S i < length docs0)) as [Hlt|Hge].
    - rewrite lookup_app_l in Ha by lia. rewrite lookup_app_l in Hb by lia.
      by apply (Hadj i).
    - assert (S i = length docs0) as Hi.
      { apply lookup_lt_Some in Hb. rewrite length_app in Hb. simpl in Hb. lia. }
      rewrite lookup_app_l in Ha by lia.
      rewrite lookup_app_r, Hi, Nat.sub_diag in Hb by lia. injection Hb as <-.
      assert (last docs0 = Some a) as Hl.
      { rewrite last_lookup. rewrite <- Hi. simpl. exact Ha. }
      destruct (Hlast a Hl) as (? & ? & ?). by repeat split. }
  revert docs cur. induction rest as [|d rest IH];
    intros docs cur Hcur Hrest Hlen Hadj Hdocs Hlast.
  - simpl. destruct cur as [|c cur].
    + simpl. unfold RCTS.join_docs. simpl. by rewrite app_nil_r.
    + rewrite (join_docs_chars (c :: cur)) by done. simpl. split.
      * by apply Hsnoc.
      * apply Forall_app. split; [done|]. by apply Forall_singleton.
  - apply Forall_cons in Hrest as [Hd Hrest].
    change (chars (d :: rest)) with ([d] :: chars rest).
    rewrite merge_loop_step. simpl length.
    replace (length (chars cur)) with (length cur)
      by (unfold chars; by rewrite length_fmap).
    destruct (bool_decide (chunk_size < length cur + 1)
              && bool_decide (0 < length cur)) eqn:Hcond.
    + apply andb_true_iff in Hcond as [Hfull Hpos].
      apply bool_decide_eq_true in Hfull, Hpos.
      assert (cur ≠ []) as Hne by (intros ->; simpl in Hpos; lia).
      rewrite pop_front_chars, (join_docs_chars cur) by done. simpl.
      replace (chars (drop (length cur - chunk_overlap) cur) ++ [[d]])
        with (chars (drop (length cur - chunk_overlap) cur ++ [d]))
        by (unfold chars; by rewrite fmap_app).
      replace (chunk_overlap `min` length cur + 1)
        with (length (drop (length cur - chunk_overlap) cur ++ [d]))
        by (rewrite length_app, length_drop; simpl; lia).
      apply IH.
      * apply Forall_app. split; [by apply Forall_drop | by apply Forall_singleton].
      * done.
      * rewrite length_app, length_drop. simpl. lia.
      * by apply Hsnoc.
      * apply Forall_app. split; [done|]. by apply Forall_singleton.
      * intros l. rewrite last_snoc. intros [= <-].
        split; [lia|]. split; [rewrite length_app, length_drop; lia|].
        rewrite take_app_le by (rewrite length_drop; lia).
        rewrite take_ge by (rewrite length_drop; lia). done.
    + replace (chars cur ++ [[d]]) with (chars (cur ++ [d]))
        by (unfold chars; by rewrite fmap_app).
      replace (length cur + 1) with (length (cur ++ [d]))
        by (rewrite length_app; simpl; lia).
      apply IH.
      * apply Forall_app. split; [done | by apply Forall_singleton].
      * done.
      * rewrite length_app. simpl.
        apply andb_false_iff in Hcond as [Hc|Hc];
          apply bool_decide_eq_false in Hc; lia.
      * done.
      * done.
      * intros l Hl. destruct (Hlast l Hl) as (? & ? & Heq).
        split; [done|]. split; [rewrite length_app; lia|].
        by rewrite take_app_le by lia.
Qed.

Lemma split_loop_all_short recur splits good :
  Forall (λ s, length s < chunk_size) splits →
  RCTS.split_loop chunk_size chunk_overlap recur splits good
  = RCTS.flush chunk_size chunk_overlap (good ++ splits).
Proof.
  revert good. induction splits as [|s splits IH]; intros good Hs; simpl.
  - by rewrite app_nil_r.
  - apply Forall_cons in Hs as [Hlen Hs].
    rewrite bool_decide_eq_true_2 by done. rewrite IH by done.
    by rewrite <- app_assoc.
Qed.

(** A text without whitespace falls through to the empty separator and is cut
    into windows that overlap by [chunk_overlap] characters. *)
Lemma split_text_hard_cut text :
  1 < chunk_size →
  Forall (λ c, Char.is_space c = false) text →
  consecutive_overlap chunk_overlap
    (RCTS.split_text chunk_size chunk_overlap text) ∧
  Forall (λ p, p ≠ [] ∧ Forall (λ c, Char.is_space c = false) p)
    (RCTS.split_text chunk_size chunk_overlap text).
Proof.
  intros Hsize Hs.
  assert (∀ a w, Char.is_space a = true → contains (a :: w) text = false) as Hno.
  { intros a w Ha. destruct (contains (a :: w) text) eqn:Hc; [|done].
    apply contains_head_elem in Hc. rewrite Forall_forall in Hs.
    apply Hs in Hc. congruence. }
  unfold RCTS.split_text, RCTS.default_separators. simpl.
  rewrite !Hno by done. simpl.
  rewrite split_text_with_regex_empty.
  rewrite split_loop_all_short.
  2:{ apply Forall_forall. intros s (c & -> & _)%list_elem_of_fmap. simpl. lia. }
  simpl. unfold RCTS.flush. case_bool_decide as Hnil.
  - split; [by intros i a b|constructor].
  - apply (merge_chars_overlap text [] []);
      [constructor|done|simpl; lia|by intros i a b|constructor|done].
Qed.

End HardCut.

Lemma langchain_split_hard_cut text :
  Forall (λ c, Char.is_space c = false) text →
  consecutive_overlap 200 (langchain_split text) ∧
  Forall (λ p, p ≠ [] ∧ Forall (λ c, Char.is_space c = false) p)
         (langchain_split text).
Proof. intros Hs. apply split_text_hard_cut; [lia|lia|done]. Qed.

(** ** Chunk contents *)

Section Contents.

Variable split_text : str → list str.
Variable uuid4_hex : nat → str.
Variables pdf_path collection_name : str.

(** The inner loop keeps the trimmed sub-chunks that are not empty, in
    order. *)
Lemma tag_chunks_contents meta sidx calls small_chunks :
  page_content <$> (tag_chunks uuid4_hex meta sidx calls small_chunks).2
  = filter (λ s, s ≠ []) (strip <$> small_chunks).
Proof.
  revert sidx calls. induction small_chunks as [|piece rest IH]; intros sidx calls;
    simpl; [done|].
  destruct (truthy (strip piece)) eqn:Ht.
  - specialize (IH (S sidx) (S calls)).
    destruct (tag_chunks uuid4_hex meta (S sidx) (S calls) rest) as [calls' ds].
    simpl in *. rewrite filter_cons_True by (by apply truthy_nonempty).
    f_equal. exact IH.
  - rewrite filter_cons_False; [apply IH|].
    intros Hne. apply truthy_nonempty in Hne. congruence.
Qed.

Lemma ingest_page_contents st page_doc :
  page_content <$>
    (ingest_page split_text uuid4_hex pdf_path collection_name st page_doc).2
  = filter (λ s, s ≠ [])
           (strip <$> small_chunks_of split_text (page_content page_doc)).
Proof.
  unfold ingest_page, small_chunks_of.
  destruct (tag_fragment _ _) as [[chapter section] cur'].
  pose proof (tag_chunks_contents
    (chunk_meta pdf_path collection_name chapter section
       (dict_get (metadata page_doc) "page") 0)
    0 (uuid_calls st)
    (if bool_decide (1000 < length (page_content page_doc))
     then split_text (page_content page_doc) else [page_content page_doc])) as H.
  by destruct (tag_chunks uuid4_hex _ 0 (uuid_calls st) _).
Qed.

Lemma ingest_pages_contents st doc i d cs :
  doc !! i = Some d →
  ingest_pages split_text uuid4_hex pdf_path collection_name st doc !! i = Some cs →
  page_content <$> cs
  = filter (λ s, s ≠ []) (strip <$> small_chunks_of split_text (page_content d)).
Proof.
  revert st i. induction doc as [|page_doc doc IH]; intros st i Hi; [done|].
  rewrite ingest_pages_cons. destruct i as [|i]; simpl; [|by apply IH].
  injection Hi as ->. intros [= <-]. apply ingest_page_contents.
Qed.

(** Every chunk of the run is the trimmed form of a sub-chunk of some page,
    and is not empty. *)
Lemma chunk_docs_elem st doc c :
  c ∈ mjoin (ingest_pages split_text uuid4_hex pdf_path collection_name st doc) →
  ∃ d piece, d ∈ doc ∧
    piece ∈ small_chunks_of split_text (page_content d) ∧
    page_content c = strip piece ∧ page_content c ≠ [].
Proof.
  revert st. induction doc as [|page_doc doc IH]; intros st; [by inversion 1|].
  rewrite ingest_pages_cons. simpl. intros [Hc|Hc]%elem_of_app.
  - destruct (tag_fragment (extract_heading (page_content page_doc))
                (current_chapter st)) as [[chapter section] cur'] eqn:Htag.
    destruct (ingest_page_elem _ _ _ _ _ _ _ _ _ _ Htag Hc)
      as (k & piece & n & Hk & Hp & Ht & _).
    exists page_doc, piece. split; [left|].
    split; [by eapply list_elem_of_lookup_2|]. split; [done|].
    rewrite Hp. by apply truthy_nonempty.
  - destruct (IH _ Hc) as (d & piece & Hd & ?). exists d, piece.
    split; [by right | done].
Qed.

Lemma ingest_pages_total st doc i d :
  doc !! i = Some d →
  ∃ cs, ingest_pages split_text uuid4_hex pdf_path collection_name st doc !! i
        = Some cs.
Proof.
  revert st i. induction doc as [|page_doc doc IH]; intros st i Hi; [done|].
  rewrite ingest_pages_cons. destruct i as [|i]; simpl; [by eexists|].
  by apply IH.
Qed.

Lemma blank_pieces_filtered (pieces : list str) :
  (∀ piece, piece ∈ pieces → strip piece = []) →
  filter (λ s, s ≠ []) (strip <$> pieces) = [].
Proof.
  induction pieces as [|piece pieces IH]; intros Hblank; simpl; [done|].
  rewrite filter_cons_False.
  - apply IH. intros p Hp. apply Hblank. by right.
  - intros Hne. apply Hne, Hblank. left.
Qed.

End Contents.

Lemma chunk_sizes_any_splitter (split_text : str → list str)
    (uuid4_hex : nat → str) (pdf_path collection_name : str)
    (doc : list Document) :
  (∀ text piece, 1000 < length text → piece ∈ split_text text →
                 length piece ≤ 1000) →
  Forall (λ c, length (page_content c) ≤ 1000)
         (chunk_docs_of split_text uuid4_hex pdf_path collection_name doc).
Proof.
  intros Hbound. apply Forall_forall. intros c Hc.
  destruct (chunk_docs_elem _ _ _ _ _ _ _ Hc) as (d & piece & _ & Hp & -> & _).
  etrans; [apply strip_length|]. unfold small_chunks_of in Hp.
  case_bool_decide as Hlen; [by eapply Hbound|].
  apply list_elem_of_singleton in Hp as ->. lia.
Qed.

Lemma trimmed_pieces_kept (pieces : list str) :
  Forall (λ p, p ≠ [] ∧ Forall (λ c, Char.is_space c = false) p) pieces →
  filter (λ s, s ≠ []) (strip <$> pieces) = pieces.
Proof.
  induction 1 as [|p pieces [Hne Hp] _ IH]; [done|].
  rewrite fmap_cons, (strip_id p Hp), filter_cons_True by done. by rewrite IH.
Qed.

(** C6, as the code has it.  Every chunk has at most 1000 characters.  A page
    text of at most 1000 characters is kept as a single unit: its only chunk,
    if it is not blank, is the trimmed text.  A longer text is cut by the
    splitter and its chunks are the trimmed pieces that are not empty; where
    the text has no whitespace at all, so that every cut is a hard cut, each
    two consecutive chunks overlap by exactly 200 characters. *)
Theorem chunk_sizes (uuid4_hex : nat → str) (pdf_path collection_name : str)
    (doc : list Document) :
  Forall (λ c, length (page_content c) ≤ 1000)
         (chunk_docs_of langchain_split uuid4_hex pdf_path collection_name doc) ∧
  ∀ i d cs,
    doc !! i = Some d →
    ingest_pages langchain_split uuid4_hex pdf_path collection_name
      initial_state doc !! i = Some cs →
    (length (page_content d) ≤ 1000 →
     page_content <$> cs = filter (λ s, s ≠ []) [strip (page_content d)]) ∧
    (1000 < length (page_content d) →
     page_content <$> cs
     = filter (λ s, s ≠ []) (strip <$> langchain_split (page_content d))) ∧
    (1000 < length (page_content d) →
     Forall (λ c, Char.is_space c = false) (page_content d) →
     consecutive_overlap 200 (page_content <$> cs)).
Proof.
  split.
  { apply chunk_sizes_any_splitter. intros text piece _.
    apply langchain_split_bound. }
  intros i d cs Hi Hcs.
  pose proof (ingest_pages_contents _ _ _ _ _ _ _ _ _ Hi Hcs) as Hcontents.
  unfold small_chunks_of in Hcontents. split; [|split].
  - intros Hlen. by rewrite bool_decide_eq_false_2 in Hcontents by lia.
  - intros Hlen. by rewrite bool_decide_eq_true_2 in Hcontents by lia.
  - intros Hlen Hs. rewrite bool_decide_eq_true_2 in Hcontents by lia.
    destruct (langchain_split_hard_cut _ Hs) as [Hoverlap Hpieces].
    by rewrite Hcontents, trimmed_pieces_kept.
Qed.

(** A page of 1500 digits is cut into the windows [0, 1000) and [800, 1500),
    which share 200 characters. *)
Lemma chunk_sizes_witness :
  page_content <$> digits_page_chunks
  = [take 1000 digits_1500; drop 800 digits_1500] ∧
  consecutive_overlap 200 (page_content <$> digits_page_chunks).
Proof.
  split; [vm_compute; reflexivity|].
  apply (proj2 (proj2
    (proj2 (chunk_sizes uuid_fixed "temp/book.pdf" "book" digits_pages)
       0 (page 0 digits_1500) digits_page_chunks eq_refl
       ltac:(vm_compute; reflexivity)))).
  - vm_compute. lia.
  - apply (bool_decide_unpack _). vm_compute. reflexivity.
Defined.

(** A text of 1802 characters made of two paragraphs is cut at the blank
    line: the two chunks share nothing. *)
Lemma chunk_overlap_counterexample :
  1000 < length two_paragraphs ∧
  page_content <$>
    chunk_docs_of langchain_split uuid_fixed "temp/book.pdf" "book"
      [page 0 two_paragraphs]
  = [repeat "a"%char 900; repeat "b"%char 900] ∧
  ¬ overlap_by 200 (repeat "a"%char 900) (repeat "b"%char 900).
Proof.
  split; [vm_compute; lia|]. split; [vm_compute; reflexivity|].
  intros (_ & _ & H). vm_compute in H. discriminate H.
Qed.

(** C7.  A sub-chunk that is empty once trimmed is skipped: the chunks of a
    page are the trimmed sub-chunks that are not empty, in order, so no chunk
    of the run has empty content.  A page whose text is all whitespace yields
    no chunk, given a splitter whose pieces are made of characters of the text
    it cuts. *)
Theorem blank_chunks_discarded (split_text : str → list str)
    (uuid4_hex : nat → str) (pdf_path collection_name : str)
    (doc : list Document) :
  (∀ i d cs,
     doc !! i = Some d →
     ingest_pages split_text uuid4_hex pdf_path collection_name initial_state doc
       !! i = Some cs →
     page_content <$> cs
     = filter (λ s, s ≠ [])
              (strip <$> small_chunks_of split_text (page_content d))) ∧
  Forall (λ c, page_content c ≠ [])
         (chunk_docs_of split_text uuid4_hex pdf_path collection_name doc) ∧
  ((∀ text piece c, piece ∈ split_text text → c ∈ piece → c ∈ text) →
   ∀ i d,
     doc !! i = Some d →
     forallb Char.is_space (page_content d) = true →
     ingest_pages split_text uuid4_hex pdf_path collection_name initial_state doc
       !! i = Some []).
Proof.
  split; [intros i d cs; apply ingest_pages_contents|]. split.
  - apply Forall_forall. intros c Hc.
    by destruct (chunk_docs_elem _ _ _ _ _ _ _ Hc) as (d & piece & _ & _ & _ & ?).
  - intros Hcut i d Hi Hblank.
    destruct (ingest_pages_total split_text uuid4_hex pdf_path collection_name
                initial_state doc i d Hi) as [cs Hcs].
    rewrite Hcs. f_equal. apply (fmap_nil_inv page_content).
    rewrite (ingest_pages_contents _ _ _ _ _ _ _ _ _ Hi Hcs).
    apply blank_pieces_filtered. intros piece Hp.
    apply strip_blank, forallb_elem. intros c Hc.
    rewrite forallb_elem in Hblank.
    apply Hblank. unfold small_chunks_of in Hp. case_bool_decide.
    + by eapply Hcut.
    + by apply list_elem_of_singleton in Hp as ->.
Qed.

Lemma blank_chunks_discarded_witness :
  ingest_pages langchain_split uuid_fixed "temp/book.pdf" "book"
    initial_state blank_pages !! 0 = Some [] ∧
  ingest_pages langchain_split uuid_fixed "temp/book.pdf" "book"
    initial_state blank_pages !! 1 = Some [].
Proof.
  split;
    [ apply (proj2 (proj2 (blank_chunks_discarded langchain_split uuid_fixed
                             "temp/book.pdf" "book" blank_pages))
               langchain_split_elem 0 (page 0 (repeat " "%char 1200)))
    | apply (proj2 (proj2 (blank_chunks_discarded langchain_split uuid_fixed
                             "temp/book.pdf" "book" blank_pages))
               langchain_split_elem 1
               (page 1 [" "%char; Char.newline; " "%char])) ];
    reflexivity.
Defined.

(** ** What the indices hold, and what a failed load leaves behind *)

Section Indices.

Variable split_text : str → list str.
Variable uuid4_hex : nat → str.

Lemma PyPDFLoader_load_metadata fs pdf_path doc d key :
  PyPDFLoader_load fs pdf_path = inr doc → d ∈ doc →
  key ≠ "source" → key ≠ "page" → metadata d !! key = None.
Proof.
  unfold PyPDFLoader_load. destruct (fs pdf_path) as [[|pages]|]; try done.
  intros [= <-] (i & Hi)%list_elem_of_lookup Hs Hp.
  rewrite list_lookup_imap in Hi.
  destruct (pages !! i) as [text|]; [|done]. injection Hi as <-. simpl.
  by rewrite !lookup_insert_ne.
Qed.

Lemma split_documents_metadata doc c :
  c ∈ split_documents split_text doc → ∃ d, d ∈ doc ∧ metadata c = metadata d.
Proof.
  unfold split_documents. rewrite list_elem_of_bind.
  intros (d & Hc & Hd). apply list_elem_of_fmap in Hc as (piece & -> & _).
  by exists d.
Qed.

Lemma ingest_pdf_to_vectordb_success pdf_path name w w' h vs cds :
  ingest_pdf_to_vectordb split_text uuid4_hex pdf_path name w
    = (w', inr (h, vs, cds)) →
  ∃ doc,
    PyPDFLoader_load (files w) pdf_path = inr doc ∧
    docstore vs = split_documents split_text doc ∧
    searchable h
      = split_documents split_text doc ++ split_documents split_text doc.
Proof.
  unfold ingest_pdf_to_vectordb.
  destruct (PyPDFLoader_load (files w) pdf_path) as [e|doc]; [done|].
  destruct (FAISS_from_documents (split_documents split_text doc))
    as [e|vs0] eqn:Hvs; [done|].
  intros [= <- <- <- <-]. exists doc. split; [done|].
  unfold FAISS_from_documents in Hvs.
  destruct (split_documents split_text doc) eqn:Hchunks; [done|].
  injection Hvs as <-. unfold searchable. simpl. by rewrite app_nil_r.
Qed.

End Indices.

(** C1, as the code has it.  Both indices are built from [chunks], the pages
    as the splitter cuts them, which carry the loader's metadata only; the
    documents a search can return have no chapter, section or page_number
    field.  The tagged [chunk_docs] are returned beside the retriever and are
    not indexed. *)
Theorem indices_hold_untagged_chunks (split_text : str → list str)
    (uuid4_hex : nat → str) (pdf_path : str) (name : option str)
    (w w' : world) (h : EnsembleRetriever) (vs : vectorstore)
    (cds : list Document) :
  ingest_pdf_to_vectordb split_text uuid4_hex pdf_path name w
    = (w', inr (h, vs, cds)) →
  Forall (λ d, metadata d !! "chapter" = None ∧
               metadata d !! "section" = None ∧
               metadata d !! "page_number" = None)
         (searchable h).
Proof.
  intros (doc & Hload & _ & ->)%ingest_pdf_to_vectordb_success.
  apply Forall_forall. intros c Hc.
  assert (c ∈ split_documents split_text doc) as Hc'.
  { by apply elem_of_app in Hc as [?|?]. }
  destruct (split_documents_metadata _ _ _ Hc') as (d & Hd & ->).
  repeat split; by eapply PyPDFLoader_load_metadata.
Qed.

(** A one-page book: the chunk returned in [chunk_docs] has its chapter, the
    same text in the two indices has none. *)
Lemma indices_hold_untagged_chunks_witness :
  ∃ w' h vs c,
    ingest_pdf_to_vectordb langchain_split uuid_fixed "temp/book.pdf" None one_book
      = (w', inr (h, vs, [c])) ∧
    chapter_of c = Some (VStr "Chapter 1") ∧
    page_content <$> searchable h = [page_content c; page_content c] ∧
    Forall (λ d, metadata d !! "chapter" = None ∧
                 metadata d !! "section" = None ∧
                 metadata d !! "page_number" = None)
           (searchable h).
Proof.
  eexists _, _, _, _. split; [vm_compute; reflexivity|].
  split; [reflexivity|]. split; [reflexivity|].
  eapply (indices_hold_untagged_chunks langchain_split uuid_fixed
            "temp/book.pdf" None one_book).
  vm_compute. reflexivity.
Defined.

(** C4, as the code has it.  A path that does not exist or is not a PDF makes
    the loader fail: the call fails with the loader's error, no store is
    saved and no retriever is built.  A PDF without pages loads as an empty
    list of documents; the call then fails in the dense index builder, again
    before anything is saved. *)
Theorem load_failure_is_fatal (split_text : str → list str)
    (uuid4_hex : nat → str) (pdf_path : str) (name : option str) (w : world) :
  (files w pdf_path = None ∨ files w pdf_path = Some NotPdf →
   ingest_pdf_to_vectordb split_text uuid4_hex pdf_path name w
     = (w, inl LoadError)) ∧
  (files w pdf_path = Some (Pdf []) →
   ingest_pdf_to_vectordb split_text uuid4_hex pdf_path name w
     = (w, inl IndexError)).
Proof.
  unfold ingest_pdf_to_vectordb, PyPDFLoader_load. split.
  - by intros [-> | ->].
  - by intros ->.
Qed.

Lemma load_failure_is_fatal_witness :
  ingest_pdf_to_vectordb langchain_split uuid_fixed "temp/missing.pdf" None empty_book
    = (empty_book, inl LoadError) ∧
  ingest_pdf_to_vectordb langchain_split uuid_fixed "temp/notes.txt" None empty_book
    = (empty_book, inl LoadError) ∧
  ingest_pdf_to_vectordb langchain_split uuid_fixed "temp/empty.pdf" None empty_book
    = (empty_book, inl IndexError).
Proof.
  split; [|split].
  - apply (proj1 (load_failure_is_fatal langchain_split uuid_fixed
                    "temp/missing.pdf" None empty_book)).
    left. reflexivity.
  - apply (proj1 (load_failure_is_fatal langchain_split uuid_fixed
                    "temp/notes.txt" None empty_book)).
    right. reflexivity.
  - apply (proj2 (load_failure_is_fatal langchain_split uuid_fixed
                    "temp/empty.pdf" None empty_book)).
    reflexivity.
Defined.

(** A PDF without pages: the call does not fail with the loader's error. *)
Lemma zero_pages_counterexample :
  PyPDFLoader_load (files empty_book) "temp/empty.pdf" = inr [] ∧
  (ingest_pdf_to_vectordb langchain_split uuid_fixed "temp/empty.pdf" None
     empty_book).2 = inl IndexError ∧
  (ingest_pdf_to_vectordb langchain_split uuid_fixed "temp/empty.pdf" None
     empty_book).2 ≠ inl LoadError.
Proof. split; [reflexivity|]. split; [reflexivity|]. discriminate. Qed.

(** * Further properties of the ingestion code *)

(** ** The random source and the chunk fields *)

Section ChunkFields.

Variable split_text : str → list str.
Variable uuid4_hex : nat → str.
Variables pdf_path collection_name : str.

(** The inner loop calls [uuid4] once per chunk it emits, in order. *)
Lemma tag_chunks_calls meta sidx calls small_chunks :
  (tag_chunks uuid4_hex meta sidx calls small_chunks).1
  = calls + length (tag_chunks uuid4_hex meta sidx calls small_chunks).2 ∧
  ∀ k d, (tag_chunks uuid4_hex meta sidx calls small_chunks).2 !! k = Some d →
         ∃ sidx', metadata d = meta sidx' (uuid4_hex (calls + k)).
Proof.
  revert sidx calls. induction small_chunks as [|piece rest IH]; intros sidx calls;
    simpl.
  - split; [lia | done].
  - destruct (truthy (strip piece)); [|apply IH].
    destruct (IH (S sidx) (S calls)) as [Hcalls Hk].
    destruct (tag_chunks uuid4_hex meta (S sidx) (S calls) rest) as [calls' ds].
    simpl in *. split; [lia|]. intros [|k] d Hd; simpl in Hd.
    + injection Hd as <-. exists sidx. by rewrite Nat.add_0_r.
    + destruct (Hk k d Hd) as [sidx' ->]. exists sidx'. do 2 f_equal. lia.
Qed.

Lemma ingest_page_calls st page_doc :
  uuid_calls (ingest_page split_text uuid4_hex pdf_path collection_name
                st page_doc).1
  = uuid_calls st
    + length (ingest_page split_text uuid4_hex pdf_path collection_name
                st page_doc).2 ∧
  ∀ k c, (ingest_page split_text uuid4_hex pdf_path collection_name
            st page_doc).2 !! k = Some c →
         ∃ page_num sidx,
           chunk_id c = Some (VStr (chunk_id_of pdf_path page_num 0 sidx
                                      (uuid4_hex (uuid_calls st + k)))).
Proof.
  unfold ingest_page. destruct (tag_fragment _ _) as [[chapter section] cur'].
  pose proof (tag_chunks_calls
    (chunk_meta pdf_path collection_name chapter section
       (dict_get (metadata page_doc) "page") 0)
    0 (uuid_calls st) (small_chunks_of split_text (page_content page_doc))) as H.
  destruct (tag_chunks uuid4_hex _ 0 (uuid_calls st) _) as [calls' ds].
  simpl in *. destruct H as [Hcalls Hk]. split; [done|].
  intros k c Hc. destruct (Hk k c Hc) as [sidx Hm].
  exists (dict_get (metadata page_doc) "page"), sidx.
  unfold chunk_id. by rewrite Hm, chunk_meta_chunk_id.
Qed.

Lemma ingest_pages_calls st doc k c :
  mjoin (ingest_pages split_text uuid4_hex pdf_path collection_name st doc)
    !! k = Some c →
  ∃ page_num sidx,
    chunk_id c = Some (VStr (chunk_id_of pdf_path page_num 0 sidx
                               (uuid4_hex (uuid_calls st + k)))).
Proof.
  revert st k. induction doc as [|page_doc doc IH]; intros st k; [done|].
  rewrite ingest_pages_cons. simpl.
  destruct (ingest_page_calls st page_doc) as [Hcalls Hk].
  intros [Hc|[Hlen Hc]]%lookup_app_Some.
  - by apply Hk.
  - apply IH in Hc as (page_num & sidx & ->). exists page_num, sidx.
    do 4 f_equal. lia.
Qed.

Lemma chunk_meta_fields chapter section page_num frag_idx sidx u :
  let meta := chunk_meta pdf_path collection_name chapter section page_num
                frag_idx sidx u in
  dom meta = ({[ "book_title"; "chapter"; "section"; "page_number"; "source";
                 "chunk_id" ]} : gset string) ∧
  meta !! "book_title" = Some (VStr collection_name) ∧
  meta !! "page_number" = Some page_num ∧
  meta !! "source" = Some (VStr (basename pdf_path)).
Proof.
  unfold chunk_meta. split.
  - rewrite !dom_insert_L, dom_empty_L. set_solver.
  - by simplify_map_eq.
Qed.

Lemma ingest_pages_fields st doc i d cs c :
  doc !! i = Some d →
  ingest_pages split_text uuid4_hex pdf_path collection_name st doc !! i = Some cs →
  c ∈ cs →
  dom (metadata c)
    = ({[ "book_title"; "chapter"; "section"; "page_number"; "source";
          "chunk_id" ]} : gset string) ∧
  metadata c !! "book_title" = Some (VStr collection_name) ∧
  metadata c !! "page_number" = Some (page_num_of d) ∧
  metadata c !! "source" = Some (VStr (basename pdf_path)).
Proof.
  revert st i. induction doc as [|page_doc doc IH]; intros st i Hi; [done|].
  rewrite ingest_pages_cons. destruct i as [|i]; simpl; [|by apply IH].
  injection Hi as ->. intros [= <-] Hin.
  destruct (tag_fragment (extract_heading (page_content d)) (current_chapter st))
    as [[chapter section] cur'] eqn:Htag.
  destruct (ingest_page_elem _ _ _ _ _ _ _ _ _ _ Htag Hin)
    as (k & piece & n & _ & _ & _ & ->).
  apply chunk_meta_fields.
Qed.

(** Before any chapter heading the chapter in force is absent, and the chunks
    carry the empty string. *)
Lemma chapter_absent doc st i cs c :
  current_chapter st = None →
  (∀ k dk, k ≤ i → doc !! k = Some dk → no_chapter_heading (page_content dk)) →
  ingest_pages split_text uuid4_hex pdf_path collection_name st doc !! i = Some cs →
  c ∈ cs →
  chapter_of c = Some (VStr []).
Proof.
  revert st i. induction doc as [|page_doc doc IH]; intros st i Hcur Hno; [done|].
  rewrite ingest_pages_cons.
  destruct (tag_fragment_no_chapter (extract_heading (page_content page_doc))
              (current_chapter st)) as [section Htag].
  { apply (Hno 0 page_doc); [lia|done]. }
  destruct i as [|i]; simpl.
  - intros [= <-] Hc.
    destruct (ingest_page_elem _ _ _ _ _ _ _ _ _ _ Htag Hc)
      as (k & piece & n & _ & _ & _ & Hm).
    unfold chapter_of. by rewrite Hm, chunk_meta_chapter, Hcur.
  - apply IH.
    + by rewrite (ingest_page_state _ _ _ _ _ _ _ _ _ Htag).
    + intros k dk Hk Hdk. apply (Hno (S k)); [lia|done].
Qed.

(** Once a chapter heading has been seen, the chapter of every later chunk is
    a non-empty string. *)
Lemma chapter_present doc st i cs c :
  (∃ h, current_chapter st = Some h ∧ h ≠ []) ∨
  (∃ j dj h, j ≤ i ∧ doc !! j = Some dj ∧
             extract_heading (page_content dj) = Some h ∧
             contains "chapter" (lower h) = true) →
  ingest_pages split_text uuid4_hex pdf_path collection_name st doc !! i = Some cs →
  c ∈ cs →
  ∃ h, chapter_of c = Some (VStr h) ∧ h ≠ [].
Proof.
  revert st i. induction doc as [|page_doc doc IH]; intros st i Hseen; [done|].
  rewrite ingest_pages_cons.
  destruct (extract_heading (page_content page_doc)) as [h0|] eqn:Hh0.
  2:{ (* no heading on this page *)
    destruct (tag_fragment_no_chapter None (current_chapter st)) as [section Htag];
      [done|]. rewrite <- Hh0 in Htag.
    destruct Hseen as [(h & Hcur & Hne)|(j & dj & h & Hj & Hdj & Hh & Hc)].
    - destruct i as [|i]; simpl.
      + intros [= <-] Hin.
        destruct (ingest_page_elem _ _ _ _ _ _ _ _ _ _ Htag Hin)
          as (k & piece & n & _ & _ & _ & Hm).
        exists h. unfold chapter_of.
        by rewrite Hm, chunk_meta_chapter, Hcur, or_empty_Some.
      + apply IH. left. exists h.
        by rewrite (ingest_page_state _ _ _ _ _ _ _ _ _ Htag).
    - destruct j as [|j]; [simpl in Hdj; injection Hdj as <-; congruence|].
      destruct i as [|i]; [lia|]. simpl. apply IH. right.
      exists j, dj, h. repeat split; [lia|done..]. }
  destruct (contains "chapter" (lower h0)) eqn:Hc0.
  - (* a chapter heading on this page *)
    pose proof (tag_fragment_chapter h0 (current_chapter st) Hc0) as Htag.
    rewrite <- Hh0 in Htag at 1.
    assert (h0 ≠ []) as Hne0 by (intros ->; done).
    destruct i as [|i]; simpl.
    + intros [= <-] Hin.
      destruct (ingest_page_elem _ _ _ _ _ _ _ _ _ _ Htag Hin)
        as (k & piece & n & _ & _ & _ & Hm).
      exists h0. unfold chapter_of. by rewrite Hm, chunk_meta_chapter, or_empty_Some.
    + apply IH. left. exists h0.
      by rewrite (ingest_page_state _ _ _ _ _ _ _ _ _ Htag).
  - (* a heading that is not a chapter heading *)
    destruct (tag_fragment_no_chapter (Some h0) (current_chapter st))
      as [section Htag]; [by intros h [= <-]|]. rewrite <- Hh0 in Htag at 1.
    destruct Hseen as [(h & Hcur & Hne)|(j & dj & h & Hj & Hdj & Hh & Hc)].
    + destruct i as [|i]; simpl.
      * intros [= <-] Hin.
        destruct (ingest_page_elem _ _ _ _ _ _ _ _ _ _ Htag Hin)
          as (k & piece & n & _ & _ & _ & Hm).
        exists h. unfold chapter_of.
        by rewrite Hm, chunk_meta_chapter, Hcur, or_empty_Some.
      * apply IH. left. exists h.
        by rewrite (ingest_page_state _ _ _ _ _ _ _ _ _ Htag).
    + destruct j as [|j]; [simpl in Hdj; injection Hdj as <-; congruence|].
      destruct i as [|i]; [lia|]. simpl. apply IH. right.
      exists j, dj, h. repeat split; [lia|done..].
Qed.

Lemma ingest_pages_tags st doc i d cs c :
  doc !! i = Some d →
  ingest_pages split_text uuid4_hex pdf_path collection_name st doc !! i = Some cs →
  c ∈ cs →
  ∃ chapter section,
    metadata c !! "chapter" = Some (VStr chapter) ∧
    metadata c !! "section" = Some (VStr section) ∧
    metadata c !! "page_number" = Some (page_num_of d).
Proof.
  revert st i. induction doc as [|page_doc doc IH]; intros st i Hi; [done|].
  rewrite ingest_pages_cons. destruct i as [|i]; simpl; [|by apply IH].
  injection Hi as ->. intros [= <-] Hin.
  destruct (tag_fragment (extract_heading (page_content d)) (current_chapter st))
    as [[chapter section] cur'] eqn:Htag.
  destruct (ingest_page_elem _ _ _ _ _ _ _ _ _ _ Htag Hin)
    as (k & piece & n & _ & _ & _ & ->).
  exists (or_empty chapter), (or_empty section).
  rewrite chunk_meta_chapter, chunk_meta_section.
  split; [done|]. split; [done|]. apply chunk_meta_fields.
Qed.

End ChunkFields.

(** X1.  [uuid4] is called once per chunk, in the order of [chunk_docs]: the
    identifier of the chunk at position [k] ends with the first eight
    characters of the [k]-th value drawn. *)
Theorem uuid_call_per_chunk (split_text : str → list str) (uuid4_hex : nat → str)
    (pdf_path collection_name : str) (doc : list Document)
    (k : nat) (c : Document) :
  chunk_docs_of split_text uuid4_hex pdf_path collection_name doc !! k = Some c →
  ∃ page_num sidx,
    chunk_id c
    = Some (VStr (chunk_id_of pdf_path page_num 0 sidx (uuid4_hex k))).
Proof. apply (ingest_pages_calls _ _ _ _ initial_state). Qed.

Lemma uuid_call_per_chunk_witness :
  chunk_id <$>
    chunk_docs_of langchain_split uuid_counting "temp/book.pdf" "book"
      long_and_short_pages
  = [ Some (VStr "book.pdf_p0_f0_s0_10000000");
      Some (VStr "book.pdf_p0_f0_s1_10000001");
      Some (VStr "book.pdf_p1_f0_s0_10000002") ] ∧
  ∃ page_num sidx,
    chunk_id (nth_chunk (chunk_docs_of langchain_split uuid_counting
                           "temp/book.pdf" "book" long_and_short_pages) 2)
    = Some (VStr (chunk_id_of "temp/book.pdf" page_num 0 sidx (uuid_counting 2))).
Proof.
  split; [vm_compute; reflexivity|].
  apply (uuid_call_per_chunk langchain_split uuid_counting "temp/book.pdf" "book"
           long_and_short_pages 2).
  vm_compute. reflexivity.
Defined.

(** X2.  Every chunk of [chunk_docs] carries exactly the six fields
    book_title, chapter, section, page_number, source and chunk_id; the
    book title is the collection name, the page number is the loader's page
    value of the chunk's page, and the source is the base name of the path. *)
Theorem chunk_fields (split_text : str → list str) (uuid4_hex : nat → str)
    (pdf_path collection_name : str) (doc : list Document)
    (i : nat) (d : Document) (cs : list Document) (c : Document) :
  doc !! i = Some d →
  ingest_pages split_text uuid4_hex pdf_path collection_name initial_state doc
    !! i = Some cs →
  c ∈ cs →
  dom (metadata c)
    = ({[ "book_title"; "chapter"; "section"; "page_number"; "source";
          "chunk_id" ]} : gset string) ∧
  metadata c !! "book_title" = Some (VStr collection_name) ∧
  metadata c !! "page_number" = Some (page_num_of d) ∧
  metadata c !! "source" = Some (VStr (basename pdf_path)).
Proof. apply ingest_pages_fields. Qed.

Lemma chunk_fields_witness :
  ∃ c, ingest_pages langchain_split uuid_fixed "temp/book.pdf" "book"
         initial_state three_pages !! 1 = Some [c] ∧
       dom (metadata c)
         = ({[ "book_title"; "chapter"; "section"; "page_number"; "source";
               "chunk_id" ]} : gset string) ∧
       metadata c !! "book_title" = Some (VStr "book") ∧
       metadata c !! "page_number" = Some (VInt 1) ∧
       metadata c !! "source" = Some (VStr "book.pdf").
Proof.
  eexists. split; [vm_compute; reflexivity|].
  eapply (chunk_fields langchain_split uuid_fixed "temp/book.pdf" "book"
            three_pages 1 (page 1 "The story goes on.")).
  - reflexivity.
  - vm_compute. reflexivity.
  - left.
Defined.

(** X3.  The chapter field is the empty string exactly on the pages before
    the first chapter heading: it is empty while no page so far has a heading
    containing "chapter", and a non-empty string from the first such page
    on. *)
Theorem chapter_empty_until_first_heading (split_text : str → list str)
    (uuid4_hex : nat → str) (pdf_path collection_name : str)
    (doc : list Document) (i : nat) (cs : list Document) (c : Document) :
  ingest_pages split_text uuid4_hex pdf_path collection_name initial_state doc
    !! i = Some cs →
  c ∈ cs →
  ((∀ k dk, k ≤ i → doc !! k = Some dk → no_chapter_heading (page_content dk)) →
   chapter_of c = Some (VStr [])) ∧
  ((∃ j dj h, j ≤ i ∧ doc !! j = Some dj ∧
              extract_heading (page_content dj) = Some h ∧
              contains "chapter" (lower h) = true) →
   ∃ h, chapter_of c = Some (VStr h) ∧ h ≠ []).
Proof.
  intros Hcs Hc. split.
  - intros Hno.
    exact (chapter_absent _ _ _ _ doc initial_state i cs c eq_refl Hno Hcs Hc).
  - intros Hseen.
    exact (chapter_present _ _ _ _ doc initial_state i cs c
             (or_intror Hseen) Hcs Hc).
Qed.

Lemma chapter_empty_until_first_heading_witness :
  chapter_of <$> plain_then_chapter_chunks
    = [Some (VStr []); Some (VStr "Chapter 1")] ∧
  chapter_of (nth_chunk plain_then_chapter_chunks 0) = Some (VStr []) ∧
  ∃ h, chapter_of (nth_chunk plain_then_chapter_chunks 1) = Some (VStr h) ∧ h ≠ [].
Proof.
  split; [vm_compute; reflexivity|]. split.
  - apply (proj1 (chapter_empty_until_first_heading langchain_split uuid_fixed
                    "temp/book.pdf" "book" plain_then_chapter 0
                    [nth_chunk plain_then_chapter_chunks 0]
                    (nth_chunk plain_then_chapter_chunks 0)
                    ltac:(vm_compute; reflexivity) ltac:(left))).
    intros k dk Hk Hdk. assert (k = 0) as -> by lia. injection Hdk as <-.
    intros h Hh. by vm_compute in Hh.
  - apply (proj2 (chapter_empty_until_first_heading langchain_split uuid_fixed
                    "temp/book.pdf" "book" plain_then_chapter 1
                    [nth_chunk plain_then_chapter_chunks 1]
                    (nth_chunk plain_then_chapter_chunks 1)
                    ltac:(vm_compute; reflexivity) ltac:(left))).
    exists 1, (page 1 (lines ["Chapter 1"; "It was a dark night."])),
      (list_ascii_of_string "Chapter 1").
    repeat split; [lia|reflexivity..].
Defined.

(** ** What a run leaves in the world *)

Section Persistence.

Variable split_text : str → list str.
Variable uuid4_hex : nat → str.

Lemma ingest_pdf_to_vectordb_cases pdf_path name w :
  (∃ e, ingest_pdf_to_vectordb split_text uuid4_hex pdf_path name w = (w, inl e)) ∨
  (∃ doc,
     PyPDFLoader_load (files w) pdf_path = inr doc ∧
     split_documents split_text doc ≠ [] ∧
     ingest_pdf_to_vectordb split_text uuid4_hex pdf_path name w
     = (mkWorld (files w)
          (<[store_key pdf_path name := split_documents split_text doc]>
             (vector_stores w)),
        inr (mkEnsembleRetriever
               [VectorStoreRetriever
                  (mkVectorstore (split_documents split_text doc));
                TFIDFRetriever (split_documents split_text doc)] [6; 4],
             mkVectorstore (split_documents split_text doc),
             chunk_docs_of split_text uuid4_hex pdf_path
               (collection_name_of pdf_path name) doc))).
Proof.
  unfold ingest_pdf_to_vectordb.
  destruct (PyPDFLoader_load (files w) pdf_path) as [e|doc]; [left; eauto|].
  unfold FAISS_from_documents.
  destruct (split_documents split_text doc) as [|c chunks] eqn:Hchunks;
    [left; eauto|].
  right. exists doc. rewrite Hchunks. by repeat split.
Qed.

End Persistence.

(** ** Paths *)



Lemma rfind_None_inv c s : rfind c s = None → c ∉ s.
Proof.
  induction s as [|x s IH]; simpl; [by inversion 2|].
  destruct (rfind c s); [done|]. unfold Char.eq.
  case_bool_decide as Hx; [done|]. intros _.
  apply not_elem_of_cons. auto.
Qed.

Lemma rfind_Some c s i :
  rfind c s = Some i → ∃ a b, s = a ++ c :: b ∧ length a = i ∧ c ∉ b.
Proof.
  revert i. induction s as [|x s IH]; intros i; simpl; [done|].
  destruct (rfind c s) as [j|] eqn:Hj.
  - intros [= <-]. destruct (IH j eq_refl) as (a & b & -> & <- & Hb).
    by exists (x :: a), b.
  - unfold Char.eq. case_bool_decide as Hx; [|done]. intros [= <-]. subst x.
    exists [], s. split; [done|]. split; [done|]. by apply rfind_None_inv.
Qed.

Lemma basename_no_slash p : "/"%char ∉ basename p.
Proof.
  unfold basename. destruct (rfind "/" p) as [i|] eqn:Hi.
  - destruct (rfind_Some _ _ _ Hi) as (a & b & -> & <- & Hb).
    replace (a ++ "/"%char :: b) with ((a ++ ["/"%char]) ++ b)
      by (by rewrite <- app_assoc).
    rewrite drop_app_length'; [done|]. rewrite length_app. simpl. lia.
  - by apply rfind_None_inv.
Qed.







(** ** The context given to the prompt *)





(** X7.  A chunk of [chunk_docs] is cited with its own chapter and section
    and with the loader's page value of its page. *)
Theorem tagged_chunk_citation (split_text : str → list str)
    (uuid4_hex : nat → str) (pdf_path collection_name : str)
    (doc : list Document) (i : nat) (d : Document) (cs : list Document)
    (c : Document) :
  doc !! i = Some d →
  ingest_pages split_text uuid4_hex pdf_path collection_name initial_state doc
    !! i = Some cs →
  c ∈ cs →
  ∃ chapter section,
    chapter_of c = Some (VStr chapter) ∧ section_of c = Some (VStr section) ∧
    citation_tag (metadata c)
    = "[Chapter: " ++ chapter ++ " | Section: " ++ section
      ++ " | Page: " ++ format_value (page_num_of d) ++ "]".
Proof.
  intros Hi Hcs Hc.
  destruct (ingest_pages_tags split_text uuid4_hex pdf_path collection_name
              initial_state doc i d cs c Hi Hcs Hc)
    as (chapter & section & Hch & Hsec & Hpage).
  exists chapter, section. split; [done|]. split; [done|].
  unfold citation_tag, get_or_question, chapter_of, section_of in *.
  by rewrite Hch, Hsec, Hpage.
Qed.

Lemma tagged_chunk_citation_witness :
  citation_tag (metadata (nth_chunk plain_then_chapter_chunks 1))
    = list_ascii_of_string "[Chapter: Chapter 1 | Section:  | Page: 1]" ∧
  ∃ chapter section,
    chapter_of (nth_chunk plain_then_chapter_chunks 1) = Some (VStr chapter) ∧
    section_of (nth_chunk plain_then_chapter_chunks 1) = Some (VStr section) ∧
    citation_tag (metadata (nth_chunk plain_then_chapter_chunks 1))
    = "[Chapter: " ++ chapter ++ " | Section: " ++ section
      ++ " | Page: " ++ format_value (VInt 1) ++ "]".
Proof.
  split; [vm_compute; reflexivity|].
  apply (tagged_chunk_citation langchain_split uuid_fixed "temp/book.pdf" "book"
           plain_then_chapter 1
           (page 1 (lines ["Chapter 1"; "It was a dark night."]))
           [nth_chunk plain_then_chapter_chunks 1]).
  - reflexivity.
  - vm_compute. reflexivity.
  - left.
Defined.



(** ** What a match reads *)

Section Matcher.

Implicit Types (r s : regex) (p q : pos) (x y text : str).

Lemma last_or_app prev x y : last_or (last_or prev x) y = last_or prev (x ++ y).
Proof.
  unfold last_or. destruct y as [|c y _] using rev_ind.
  - by rewrite app_nil_r.
  - by rewrite app_assoc, !last_snoc.
Qed.

Lemma reads_refl p : reads p [] p.
Proof. by split. Qed.

Lemma reads_trans p x m y q : reads p x m → reads m y q → reads p (x ++ y) q.
Proof.
  intros [Hx Hpx] [Hy Hmy]. split.
  - by rewrite Hx, Hy, app_assoc.
  - by rewrite Hmy, Hpx, last_or_app.
Qed.

Lemma star_ends_self (step : pos → list pos) n p : p ∈ star_ends step n p.
Proof. destruct n; simpl; [|apply elem_of_app; right]; apply list_elem_of_singleton; done. Qed.

Lemma star_ends_rel (step : pos → list pos) (R : pos → pos → Prop) :
  (∀ p, R p p) → (∀ p m q, R p m → R m q → R p q) →
  (∀ p q, q ∈ step p → R p q) →
  ∀ n p q, q ∈ star_ends step n p → R p q.
Proof.
  intros Hrefl Htrans Hstep. induction n as [|n IH]; intros p q; simpl.
  - by intros ->%list_elem_of_singleton.
  - intros [H| ->%list_elem_of_singleton]%elem_of_app; [|done].
    apply list_elem_of_bind in H as (m & Hq & [_ Hm]%list_elem_of_filter).
    eauto.
Qed.

(** A match reads a piece of the text, at least as long as the pattern's
    shortest match, made of characters of the pattern's classes. *)
Lemma ends_reads (P : ascii → Prop) r :
  classes_in P r → ∀ p q, q ∈ ends r p →
  ∃ x, reads p x q ∧ Forall P x ∧ min_len r ≤ length x.
Proof.
  induction r as [|f| | | |r1 IH1 r2 IH2|r1 IH1 r2 IH2|r1 IH1];
    intros Hc p q; simpl.
  - intros ->%list_elem_of_singleton. exists []. by repeat split.
  - destruct p as [prev [|c rest]]; simpl; [by intros ?%elem_of_nil|].
    destruct (f c) eqn:Hf; [|by intros ?%elem_of_nil].
    intros ->%list_elem_of_singleton. exists [c]. repeat split; auto.
  - destruct (at_line_start p); [|by intros ?%elem_of_nil].
    intros ->%list_elem_of_singleton. exists []. by repeat split.
  - destruct p.1; [by intros ?%elem_of_nil|].
    intros ->%list_elem_of_singleton. exists []. by repeat split.
  - destruct (at_word_boundary p); [|by intros ?%elem_of_nil].
    intros ->%list_elem_of_singleton. exists []. by repeat split.
  - destruct Hc as [Hc1 Hc2].
    intros (m & Hq & Hm)%list_elem_of_bind.
    destruct (IH1 Hc1 _ _ Hm) as (x1 & Hr1 & HP1 & Hl1).
    destruct (IH2 Hc2 _ _ Hq) as (x2 & Hr2 & HP2 & Hl2).
    exists (x1 ++ x2). split; [by eapply reads_trans|].
    split; [by apply Forall_app|]. rewrite length_app. lia.
  - destruct Hc as [Hc1 Hc2].
    intros [H|H]%elem_of_app.
    + destruct (IH1 Hc1 _ _ H) as (x & ? & ? & ?). exists x. (split; [done|split; [done|lia]]).
    + destruct (IH2 Hc2 _ _ H) as (x & ? & ? & ?). exists x. (split; [done|split; [done|lia]]).
  - intros H.
    apply (star_ends_rel (ends r1) (λ p q, ∃ x, reads p x q ∧ Forall P x ∧ 0 ≤ length x))
      in H; [done|..].
    + intros p'. exists []. repeat split; [done|lia].
    + intros p' m q' (x1 & ? & ? & _) (x2 & ? & ? & _). exists (x1 ++ x2).
      split; [by eapply reads_trans|]. split; [by apply Forall_app|lia].
    + intros p' q' H'. destruct (IH1 Hc _ _ H') as (x & ? & ? & _).
      exists x. (split; [done|split; [done|lia]]).
Qed.

Lemma classes_in_True r : classes_in (λ _, True) r.
Proof. induction r; simpl; auto. Qed.

Lemma ends_reads_any r p q :
  q ∈ ends r p → ∃ x, reads p x q ∧ min_len r ≤ length x.
Proof.
  intros H. destruct (ends_reads _ r (classes_in_True r) _ _ H) as (x & ? & _ & ?).
  eauto.
Qed.

(** What an anchor-free pattern matches, it also matches in any other
    surrounding. *)
Lemma star_ends_frame (step : pos → list pos) :
  (∀ p q, q ∈ step p →
     ∃ x, reads p x q ∧ ∀ prev t, (last_or prev x, t) ∈ step (prev, x ++ t)) →
  ∀ n p q, q ∈ star_ends step n p →
  ∃ x, reads p x q ∧
       ∀ prev t m, length (x ++ t) ≤ m →
                   (last_or prev x, t) ∈ star_ends step m (prev, x ++ t).
Proof.
  intros Hstep. induction n as [|n IH]; intros p q; simpl.
  - intros ->%list_elem_of_singleton. exists []. split; [apply reads_refl|].
    intros prev t m _. apply star_ends_self.
  - intros [H| ->%list_elem_of_singleton]%elem_of_app.
    + apply list_elem_of_bind in H as (p1 & Hq & [Hlt Hp1]%list_elem_of_filter).
      destruct (Hstep _ _ Hp1) as (x1 & Hr1 & Hf1).
      destruct (IH _ _ Hq) as (x2 & Hr2 & Hf2).
      exists (x1 ++ x2). split; [by eapply reads_trans|].
      intros prev t m Hm.
      assert (0 < length x1) as Hx1.
      { destruct Hr1 as [Hr1 _]. rewrite Hr1, length_app in Hlt. lia. }
      destruct m as [|m]; [rewrite !length_app in Hm; lia|]. simpl.
      apply elem_of_app; left. apply list_elem_of_bind.
      exists (last_or prev x1, x2 ++ t). split.
      * rewrite <- last_or_app. apply Hf2.
        rewrite !length_app in Hm. rewrite length_app. lia.
      * apply list_elem_of_filter. split.
        -- simpl. rewrite !length_app. lia.
        -- rewrite <- app_assoc. apply Hf1.
    + exists []. split; [apply reads_refl|].
      intros prev t m _. apply star_ends_self.
Qed.

Lemma ends_frame r :
  anchor_free r = true → ∀ p q, q ∈ ends r p →
  ∃ x, reads p x q ∧ ∀ prev t, (last_or prev x, t) ∈ ends r (prev, x ++ t).
Proof.
  induction r as [|f| | | |r1 IH1 r2 IH2|r1 IH1 r2 IH2|r1 IH1];
    intros Ha p q; simpl in *; try done.
  - intros ->%list_elem_of_singleton. exists []. split; [apply reads_refl|].
    intros prev t. by apply list_elem_of_singleton.
  - destruct p as [prev [|c rest]]; simpl; [by intros ?%elem_of_nil|].
    destruct (f c) eqn:Hf; [|by intros ?%elem_of_nil].
    intros ->%list_elem_of_singleton. exists [c]. split; [by split|].
    intros prev' t. simpl. rewrite Hf. by apply list_elem_of_singleton.
  - apply andb_true_iff in Ha as [Ha1 Ha2].
    intros (m & Hq & Hm)%list_elem_of_bind.
    destruct (IH1 Ha1 _ _ Hm) as (x1 & Hr1 & Hf1).
    destruct (IH2 Ha2 _ _ Hq) as (x2 & Hr2 & Hf2).
    exists (x1 ++ x2). split; [by eapply reads_trans|].
    intros prev t. apply list_elem_of_bind.
    exists (last_or prev x1, x2 ++ t). split.
    + rewrite <- last_or_app. apply Hf2.
    + rewrite <- app_assoc. apply Hf1.
  - apply andb_true_iff in Ha as [Ha1 Ha2].
    intros [H|H]%elem_of_app.
    + destruct (IH1 Ha1 _ _ H) as (x & ? & Hf). exists x. split; [done|].
      intros prev t. apply elem_of_app; left. apply Hf.
    + destruct (IH2 Ha2 _ _ H) as (x & ? & Hf). exists x. split; [done|].
      intros prev t. apply elem_of_app; right. apply Hf.
  - intros H.
    destruct (star_ends_frame (ends r1) (IH1 Ha) _ _ _ H) as (x & Hr & Hf).
    exists x. split; [done|]. intros prev t. by apply Hf.
Qed.

(** A literal word reads characters equal to its own, one by one. *)
Lemma ends_Lit (eqc : ascii → ascii → bool) (w : str) p q :
  q ∈ ends (Lit eqc w) p →
  ∃ x, reads p x q ∧ Forall2 (λ a c, eqc a c = true) w x.
Proof.
  revert p. induction w as [|a w IH]; intros p; simpl.
  - intros ->%list_elem_of_singleton. exists []. split; [apply reads_refl|done].
  - intros (m & Hq & Hm)%list_elem_of_bind.
    destruct p as [prev [|c rest]]; simpl in Hm; [by apply elem_of_nil in Hm|].
    destruct (eqc a c) eqn:Hac; [|by apply elem_of_nil in Hm].
    apply list_elem_of_singleton in Hm as ->.
    destruct (IH _ Hq) as (x & Hr & Hx).
    exists (c :: x). split; [|by constructor].
    apply (reads_trans _ [c] (Some c, rest)); [by split|done].
Qed.

Lemma ieq_lower (w x : str) :
  Forall2 (λ a c, Char.ieq a c = true) w x → lower x = lower w.
Proof.
  induction 1 as [|a c w x Hac _ IH]; [done|]. unfold lower in *.
  rewrite !fmap_cons. apply bool_decide_eq_true in Hac. by rewrite Hac, IH.
Qed.

Lemma startswith_app (w t : str) : startswith w (w ++ t) = true.
Proof.
  induction w as [|a w IH]; simpl; [done|].
  unfold Char.eq. by rewrite bool_decide_eq_true_2, IH.
Qed.

Lemma contains_app_l (w t : str) : contains w (w ++ t) = true.
Proof.
  destruct (w ++ t) eqn:E; simpl; rewrite <- E, startswith_app; done.
Qed.

(** The first end of a greedy class loop is where the class stops. *)
Lemma head_star_class (f : ascii → bool) n prev (t : str) e :
  length t ≤ n →
  head (star_ends (ends (Cls f)) n (prev, t)) = Some e →
  e.2 = [] ∨ ∃ c t, e.2 = c :: t ∧ f c = false.
Proof.
  remember (ends (Cls f)) as step eqn:Hstep.
  revert prev t. induction n as [|n IH]; intros prev s Hn; simpl.
  - destruct s; [|simpl in Hn; lia]. intros [= <-]. by left.
  - destruct s as [|c s].
    + rewrite Hstep. simpl. intros [= <-]. by left.
    + assert (step (prev, c :: s) = if f c then [(Some c, s)] else []) as ->
        by by rewrite Hstep.
      destruct (f c) eqn:Hf.
      * rewrite filter_cons_True by (simpl; lia). rewrite filter_nil.
        simpl. rewrite app_nil_r.
        destruct (star_ends step n (Some c, s)) as [|e' es] eqn:Hs.
        { pose proof (star_ends_self step n (Some c, s)) as H.
          rewrite Hs in H. by apply elem_of_nil in H. }
        simpl. intros [= <-]. apply (IH (Some c) s); [simpl in Hn; lia|].
        by rewrite Hs.
      * simpl. intros [= <-]. right. eauto.
Qed.

Lemma head_bind {A B} (f : A → list B) (l : list A) e :
  head (l ≫= f) = Some e → ∃ m, m ∈ l ∧ head (f m) = Some e.
Proof.
  induction l as [|a l IH]; simpl; [done|].
  destruct (f a) as [|b bs] eqn:Hfa; simpl.
  - intros (m & ? & ?)%IH. exists m. split; [by right|done].
  - intros [= <-]. exists a. split; [left|by rewrite Hfa].
Qed.

Lemma head_elem {A} (l : list A) e : head l = Some e → e ∈ l.
Proof. destruct l; [done|]. intros [= <-]. left. Qed.

(** [pattern.search]: where the match is, and how it was found. *)
Lemma search_from_Some r start prev rest a h :
  search_from r start prev rest = Some (a, h) →
  ∃ pre post e,
    rest = pre ++ h ++ post ∧ a = start + length pre ∧
    head (ends r (last_or prev pre, h ++ post)) = Some e ∧ e.2 = post.
Proof.
  revert start prev a h.
  induction rest as [|c rest IH]; intros start prev a h; simpl.
  - destruct (ends r (prev, [])) as [|e es] eqn:He; [done|].
    intros [= <- <-].
    destruct (ends_reads_any r (prev, []) e) as (x & [Hx _] & _);
      [rewrite He; left|].
    simpl in Hx. symmetry in Hx. apply app_eq_nil in Hx as [-> Hx].
    exists [], [], e. rewrite Hx. change (last_or prev []) with prev.
    simpl. rewrite He. repeat split; lia.
  - destruct (ends r (prev, c :: rest)) as [|e es] eqn:He.
    + intros (pre & post & e & -> & -> & Hh & He2)%IH.
      exists (c :: pre), post, e. repeat split; [simpl; lia| |done].
      replace (last_or prev (c :: pre)) with (last_or (Some c) pre)
        by exact (last_or_app prev [c] pre).
      done.
    + intros [= <- <-].
      destruct (ends_reads_any r (prev, c :: rest) e) as (x & [Hx _] & _);
        [rewrite He; left|].
      simpl in Hx. exists [], e.2, e.
      assert (take (S (length rest) - length e.2) (c :: rest) = x) as ->.
      { change (S (length rest)) with (length (c :: rest)).
        rewrite Hx, length_app.
        replace (length x + length e.2 - length e.2) with (length x) by lia.
        by rewrite take_app_length. }
      rewrite <- Hx. change (last_or prev []) with prev.
      simpl. rewrite He. repeat split; lia.
Qed.

Lemma search_Some r text a h :
  search r text = Some (a, h) →
  ∃ pre post e,
    text = pre ++ h ++ post ∧ a = length pre ∧
    head (ends r (last pre, h ++ post)) = Some e ∧ e.2 = post.
Proof.
  intros (pre & post & e & ? & ? & He & ?)%search_from_Some.
  exists pre, post, e. repeat split; [done..| |done].
  unfold last_or in He. by destruct (last pre).
Qed.

Lemma ends_Bol r p : ends (Seq Bol r) p = if at_line_start p then ends r p else [].
Proof. simpl. destruct (at_line_start p); simpl; [apply app_nil_r|done]. Qed.

Lemma at_line_start_last pre (t : str) :
  at_line_start (last pre, t) = true → pre = [] ∨ last pre = Some Char.newline.
Proof.
  unfold at_line_start. simpl. destruct (last pre) as [c|] eqn:Hc.
  - intros H. right. f_equal. unfold Char.is_newline, Char.code in H.
    apply Nat.eqb_eq in H. rewrite <- (ascii_nat_embedding c), H. done.
  - intros _. left. by apply last_None.
Qed.

Lemma search_from_wherever r s start start' prev rest :
  matches_wherever r s →
  is_Some (search_from s start prev rest) →
  is_Some (search_from r start' prev rest).
Proof.
  intros Hcov. revert start start' prev.
  induction rest as [|c rest IH]; intros start start' prev; simpl.
  - destruct (ends s (prev, [])) as [|e es] eqn:Hs; [by intros [? ?]|].
    intros _. destruct (ends r (prev, [])) eqn:Hr; [|eauto].
    destruct (Hcov (prev, [])); [by rewrite Hs | done].
  - destruct (ends s (prev, c :: rest)) as [|e es] eqn:Hs.
    + intros H. destruct (ends r (prev, c :: rest)); [by eapply IH | eauto].
    + intros _. destruct (ends r (prev, c :: rest)) eqn:Hr; [|eauto].
      destruct (Hcov (prev, c :: rest)); [by rewrite Hs | done].
Qed.

End Matcher.

(** ** The headings [extract_heading] returns *)

Section Headings.

Implicit Types (r : regex) (p q : pos) (text h pre post : str).

Lemma code_newline c : Char.code c = 10 → c = Char.newline.
Proof.
  unfold Char.code. intros H. by rewrite <- (ascii_nat_embedding c), H.
Qed.

Lemma not_dot_newline c : Char.is_dot c = false → c = Char.newline.
Proof.
  unfold Char.is_dot, Char.is_newline. intros H%negb_false_iff%Nat.eqb_eq.
  by apply code_newline.
Qed.

Lemma dot_not_newline c : Char.is_dot c = true → c ≠ Char.newline.
Proof. by intros H ->. Qed.

Lemma head_greedy_tail f r p e :
  greedy_tail f r → head (ends r p) = Some e →
  e.2 = [] ∨ ∃ c t, e.2 = c :: t ∧ f c = false.
Proof.
  revert p. induction r as [| | | | |r1 _ r2 IH2| |r1 _]; intros p; simpl; try done.
  - intros Hg (m & _ & Hm)%head_bind. by eapply IH2.
  - destruct r1; try done. intros ->. destruct p as [prev s].
    by apply head_star_class.
Qed.

(** A pattern anchored with [^] that needs at least one character and ends
    with [.*] returns a non-empty piece of the text that begins at a line
    start and runs to a line end. *)
Lemma line_pattern_shape r text a h :
  0 < min_len r → greedy_tail Char.is_dot r →
  search (Seq Bol r) text = Some (a, h) →
  h ≠ [] ∧
  ∃ pre post, text = pre ++ h ++ post ∧ a = length pre ∧
              at_line_begin pre ∧ at_line_end post ∧
              ∃ l, (l, post) ∈ ends r (last pre, h ++ post).
Proof.
  intros Hmin Hg (pre & post & e & -> & -> & He & <-)%search_Some.
  rewrite ends_Bol in He.
  destruct (at_line_start (last pre, h ++ e.2)) eqn:Hbol; [|done].
  destruct (ends_reads_any r _ _ (head_elem _ _ He)) as (x & [Hx _] & Hlen).
  simpl in Hx. apply app_inv_tail in Hx as ->.
  split; [intros ->; simpl in Hlen; lia|].
  exists pre, e.2. split; [done|]. split; [done|].
  split; [by eapply at_line_start_last|]. split.
  - destruct (head_greedy_tail _ _ _ _ Hg He) as [?|(c & t & Hc & ->%not_dot_newline)];
      [by left|right]. by rewrite Hc.
  - exists e.1. apply head_elem in He. by destruct e.
Qed.

Lemma bind_nonempty {A B} (f : A → list B) (l : list A) m :
  m ∈ l → f m ≠ [] → l ≫= f ≠ [].
Proof.
  intros Hm Hf Hnil. destruct (f m) as [|e es] eqn:He; [done|].
  assert (e ∈ l ≫= f) as H.
  { apply list_elem_of_bind. exists m. split; [rewrite He; left|done]. }
  rewrite Hnil in H. by apply elem_of_nil in H.
Qed.

Lemma star_ends_nonempty (step : pos → list pos) n p : star_ends step n p ≠ [].
Proof.
  intros H. pose proof (star_ends_self step n p) as Hp. rewrite H in Hp.
  by apply elem_of_nil in Hp.
Qed.

Lemma ieq_r_word c : Char.ieq "r" c = true → Char.is_word c = true.
Proof.
  destruct c as [[] [] [] [] [] [] [] []]; try reflexivity;
    intros H; by vm_compute in H.
Qed.

Lemma ieq_n_word c : Char.ieq "n" c = true → Char.is_word c = true.
Proof.
  destruct c as [[] [] [] [] [] [] [] []]; try reflexivity;
    intros H; by vm_compute in H.
Qed.

Lemma lit_chapter : Lit Char.ieq "Chapter" = Lit Char.ieq "chapter".
Proof. vm_compute. reflexivity. Qed.

(** Pattern 5 asks for a line that begins with "chapter." — which pattern 1
    matches too. *)
Lemma chapter_wherever_link : matches_wherever pattern_chapter pattern_link.
Proof.
  intros p. unfold pattern_chapter, pattern_link. rewrite !ends_Bol.
  destruct (at_line_start p); [|done].
  intros Hlink.
  destruct (ends _ p) as [|e es] eqn:He in Hlink; [done|]. clear Hlink.
  assert (e ∈ e :: es) as Hin by left. rewrite <- He in Hin. clear He.
  change (ends (Seq ?a ?b) p) with (ends a p ≫= ends b) in Hin.
  apply list_elem_of_bind in Hin as (m & Hin & Hm).
  change (ends (Seq ?a ?b) m) with (ends a m ≫= ends b) in Hin.
  apply list_elem_of_bind in Hin as (m2 & _ & Hm2).
  destruct (ends_Lit _ _ _ _ Hm) as (x & [Hx Hlast] & Hw).
  assert (∃ c, last x = Some c ∧ Char.ieq "r" c = true) as (c7 & Hc7 & Hr).
  { repeat (apply Forall2_cons_inv_l in Hw as (? & ? & ? & Hw & ->)).
    apply Forall2_nil_inv_l in Hw as ->. eauto. }
  assert (∃ t, m.2 = "."%char :: t) as [t Ht].
  { destruct m as [l [|c t]]; simpl in Hm2; [by apply elem_of_nil in Hm2|].
    unfold Char.eq in Hm2. case_bool_decide; [|by apply elem_of_nil in Hm2].
    subst. eauto. }
  assert (at_word_boundary m = true) as Hwb.
  { unfold at_word_boundary. rewrite Hlast, Ht. unfold last_or. rewrite Hc7.
    simpl. by rewrite (ieq_r_word _ Hr). }
  change (ends (Seq ?a ?b) p) with (ends a p ≫= ends b).
  apply (bind_nonempty _ _ m).
  - change (ends (Alt ?a ?b) p) with (ends a p ++ ends b p).
    apply elem_of_app; left. rewrite lit_chapter. exact Hm.
  - simpl. rewrite Hwb. simpl. rewrite app_nil_r.
    apply star_ends_nonempty.
Qed.

Lemma extract_heading_live text :
  extract_heading text = first_match live_patterns text.
Proof.
  unfold extract_heading, HEADING_PATTERNS, live_patterns. simpl.
  destruct (search pattern_chapter text) as [m|] eqn:H1; [done|].
  destruct (search pattern_section text) as [m|] eqn:H2; [done|].
  destruct (search pattern_numbered text) as [m|] eqn:H3; [done|].
  destruct (search pattern_numbered_alpha text) as [m|] eqn:H4.
  { destruct (search_covers _ _ text numbered_covers_numbered_alpha) as [? H];
      [by rewrite H4|congruence]. }
  destruct (search pattern_link text) as [m|] eqn:H5; [|done].
  destruct (search_from_wherever _ _ 0 0 None text chapter_wherever_link) as [? H];
    [exists m; exact H5|].
  unfold search in H1. congruence.
Qed.

Lemma extract_heading_cases text h :
  extract_heading text = Some h →
  ∃ r a, r ∈ live_patterns ∧ search r text = Some (a, h).
Proof.
  rewrite extract_heading_live.
  intros (i & r & a & Hi & Hs & _)%first_match_Some.
  exists r, a. split; [by eapply list_elem_of_lookup_2|done].
Qed.

(** Headings of patterns 1 and 2: one line that begins with the keyword. *)
Lemma keyword_heading (w1 w2 kw : str) text a h :
  lower w1 = kw → lower w2 = kw → kw ≠ [] → Char.newline ∉ kw →
  search (Seq Bol (Seq (Alt (Lit Char.ieq w1) (Lit Char.ieq w2))
                       (Seq Wordb (Star (Cls Char.is_dot))))) text
    = Some (a, h) →
  (∃ t, lower h = kw ++ t) ∧ Char.newline ∉ h.
Proof.
  intros H1 H2 Hne Hkw
    (_ & pre & post & -> & _ & _ & _ & l & He)%line_pattern_shape; [| |done];
    [|destruct w1; [by subst|]; destruct w2; [by subst|]; simpl; lia].
  change (ends (Seq ?a ?b) ?p) with (ends a p ≫= ends b) in He.
  apply list_elem_of_bind in He as (m & He & Hm).
  assert (∃ x, reads (last pre, h ++ post) x m ∧ lower x = kw) as (x1 & Hr1 & Hx1).
  { change (ends (Alt ?a ?b) ?p) with (ends a p ++ ends b p) in Hm.
    apply elem_of_app in Hm as [Hm|Hm];
      destruct (ends_Lit _ _ _ _ Hm) as (x & ? & Hx%ieq_lower);
      exists x; (split; [done|congruence]). }
  destruct (ends_reads (λ c, c ≠ Char.newline)
              (Seq Wordb (Star (Cls Char.is_dot)))) with (p := m) (q := (l, post))
    as (x2 & Hr2 & HP2 & _); [simpl; by auto using dot_not_newline|done|].
  destruct (reads_trans _ _ _ _ _ Hr1 Hr2) as [Hx _]. simpl in Hx.
  apply app_inv_tail in Hx as ->. split.
  - exists (lower x2). unfold lower in *. by rewrite fmap_app, Hx1.
  - rewrite elem_of_app. intros [Hin|Hin].
    + apply Hkw. rewrite <- Hx1. unfold lower.
      change Char.newline with (Char.lower Char.newline).
      by apply list_elem_of_fmap_2.
    + by eapply Forall_forall in HP2.
Qed.

(** Headings of pattern 3 pass the numbered-heading test of line 79. *)
Lemma numbered_heading text a h :
  search pattern_numbered text = Some (a, h) →
  is_Some (re_match numbered_prefix h).
Proof.
  intros (_ & pre & post & -> & _ & _ & _ & l & He)%line_pattern_shape;
    [|vm_compute; lia|done].
  change (ends (Seq ?a ?b) ?p) with (ends a p ≫= ends b) in He.
  apply list_elem_of_bind in He as (m1 & He & Hm1).
  change (ends (Seq ?a ?b) ?p) with (ends a p ≫= ends b) in He.
  apply list_elem_of_bind in He as (m2 & He & Hm2).
  destruct (ends_frame dotted_numeral eq_refl _ _ Hm1) as (x1 & Hr1 & Hf1).
  destruct (ends_frame (Plus (Cls Char.is_space)) eq_refl _ _ Hm2)
    as (x2 & Hr2 & Hf2).
  destruct (ends_reads_any _ _ _ He) as (x3 & Hr3 & _).
  destruct (reads_trans _ _ _ _ _ (reads_trans _ _ _ _ _ Hr1 Hr2) Hr3) as [Hx _].
  simpl in Hx. apply app_inv_tail in Hx as ->.
  unfold re_match.
  destruct (ends numbered_prefix (None, (x1 ++ x2) ++ x3)) as [|e es] eqn:Hn;
    [|by eexists].
  exfalso. revert Hn. unfold numbered_prefix.
  change (ends (Seq Bos ?r) (None, ?t)) with (ends r (None, t) ++ []).
  rewrite app_nil_r.
  change (ends (Seq ?a ?b) ?p) with (ends a p ≫= ends b).
  apply (bind_nonempty _ _ (last_or None x1, x2 ++ x3)).
  - rewrite <- app_assoc. apply Hf1.
  - intros Hnil. specialize (Hf2 (last_or None x1) x3).
    rewrite Hnil in Hf2. by apply elem_of_nil in Hf2.
Qed.

(** Where a pattern matches, [search] finds a match, there or before. *)
Lemma search_from_leftmost r start prev pre (t : str) :
  ends r (last_or prev pre, t) ≠ [] →
  ∃ a h, search_from r start prev (pre ++ t) = Some (a, h) ∧
         a ≤ start + length pre.
Proof.
  revert start prev. induction pre as [|c pre IH]; intros start prev Hne.
  - change (last_or prev []) with prev in Hne. simpl.
    destruct t; simpl; (destruct (ends r _); [done|eexists _, _; split; [done|lia]]).
  - simpl. destruct (ends r (prev, c :: pre ++ t)).
    + destruct (IH (S start) (Some c)) as (a & h & -> & ?).
      { replace (last_or (Some c) pre) with (last_or prev (c :: pre))
          by exact (eq_sym (last_or_app prev [c] pre)).
        done. }
      exists a, h. split; [done|lia].
    + eexists _, _. split; [done|lia].
Qed.

(** A literal word matches the texts that are equal to it character by
    character. *)
Lemma Lit_ends (eqc : ascii → ascii → bool) (w x : str) prev (t : str) :
  Forall2 (λ a c, eqc a c = true) w x →
  (last_or prev x, t) ∈ ends (Lit eqc w) (prev, x ++ t).
Proof.
  intros H. revert prev. induction H as [|a c w x Hac _ IH]; intros prev.
  - by apply list_elem_of_singleton.
  - simpl. rewrite Hac. simpl. rewrite app_nil_r.
    replace (last_or prev (c :: x)) with (last_or (Some c) x)
      by exact (last_or_app prev [c] x).
    apply IH.
Qed.

Lemma lower_ieq (w x : str) :
  lower x = lower w → Forall2 (λ a c, Char.ieq a c = true) w x.
Proof.
  revert x. induction w as [|a w IH]; intros [|c x]; try done.
  unfold lower. rewrite !fmap_cons. intros [= Hc Hx]. constructor.
  - by apply bool_decide_eq_true.
  - by apply IH.
Qed.

(** A line that begins with the word "chapter", in any case, is matched by
    pattern 1. *)
Lemma chapter_line_matches pre kw (rest : str) :
  at_line_begin pre → lower kw = "chapter" →
  (rest = [] ∨ ∃ c t, rest = c :: t ∧ Char.is_word c = false) →
  ends pattern_chapter (last pre, kw ++ rest) ≠ [].
Proof.
  intros Hpre Hkw Hrest. unfold pattern_chapter. rewrite ends_Bol.
  assert (at_line_start (last pre, kw ++ rest) = true) as ->.
  { unfold at_line_start. simpl. by destruct Hpre as [->| ->]. }
  change (ends (Seq ?a ?b) ?p) with (ends a p ≫= ends b).
  apply (bind_nonempty _ _ (last_or (last pre) kw, rest)).
  - change (ends (Alt ?a ?b) ?p) with (ends a p ++ ends b p).
    apply elem_of_app; left. apply Lit_ends, lower_ieq. by rewrite Hkw.
  - assert (∃ c, last kw = Some c ∧ Char.ieq "r" c = true) as (c7 & Hc7 & Hr).
    { assert (Forall2 (λ a c, Char.ieq a c = true) "chapter" kw) as Hw
        by (apply lower_ieq; by rewrite Hkw).
      repeat (apply Forall2_cons_inv_l in Hw as (? & ? & ? & Hw & ->)).
      apply Forall2_nil_inv_l in Hw as ->. eauto. }
    simpl. unfold at_word_boundary, last_or. rewrite Hc7. simpl.
    rewrite (ieq_r_word _ Hr).
    assert (from_option Char.is_word false (head rest) = false) as ->.
    { destruct Hrest as [->|(c & t & -> & Hc)]; done. }
    simpl. rewrite app_nil_r. apply star_ends_nonempty.
Qed.

End Headings.


Lemma chapter_no_newline : Char.newline ∉ list_ascii_of_string "chapter".
Proof. refine (bool_decide_unpack _ _). exact I. Qed.



Section PageHeadings.

Variable split_text : str → list str.
Variable uuid4_hex : nat → str.
Variables pdf_path collection_name : str.

Lemma ingest_pages_lookup st doc i d cs :
  doc !! i = Some d →
  ingest_pages split_text uuid4_hex pdf_path collection_name st doc !! i = Some cs →
  ∃ st', cs = (ingest_page split_text uuid4_hex pdf_path collection_name st' d).2.
Proof.
  revert st i. induction doc as [|page_doc doc IH]; intros st i Hi; [done|].
  rewrite ingest_pages_cons. destruct i as [|i]; simpl; [|by apply IH].
  injection Hi as ->. intros [= <-]. eauto.
Qed.


End PageHeadings.

(** X9.  The heading of a page is a non-empty piece of the page text that
    begins where a line begins and ends where a line ends. *)
Theorem heading_is_whole_lines (text h : str) :
  extract_heading text = Some h →
  h ≠ [] ∧
  ∃ pre post, text = pre ++ h ++ post ∧ at_line_begin pre ∧ at_line_end post.
Proof.
  intros (r & a & Hr & Hs)%extract_heading_cases.
  unfold live_patterns in Hr.
  repeat (apply elem_of_cons in Hr as [->|Hr]); [..|by apply elem_of_nil in Hr];
    apply line_pattern_shape in Hs
      as (Hne & pre & post & -> & _ & Hpre & Hpost & _);
    try (vm_compute; lia); try done; eauto 10.
Qed.

Lemma heading_is_whole_lines_witness :
  extract_heading numbered_second_line = Some (list_ascii_of_string "2.1 Methods") ∧
  ∃ pre post,
    numbered_second_line = pre ++ list_ascii_of_string "2.1 Methods" ++ post ∧
    at_line_begin pre ∧ at_line_end post.
Proof.
  split; [vm_compute; reflexivity|].
  apply (heading_is_whole_lines numbered_second_line "2.1 Methods").
  vm_compute. reflexivity.
Defined.

(** X10.  The fifth pattern never decides: wherever it matches, the first
    pattern matches too, so that [extract_heading] is the search through the
    first three patterns only. *)
Theorem link_pattern_is_dead (text : str) :
  (is_Some (search pattern_link text) → is_Some (search pattern_chapter text)) ∧
  extract_heading text = first_match live_patterns text.
Proof.
  split; [|apply extract_heading_live].
  apply (search_from_wherever _ _ 0 0 None text chapter_wherever_link).
Qed.

Lemma link_pattern_is_dead_witness :
  is_Some (search pattern_chapter
             (list_ascii_of_string "chapter. Here's the link: example.org")) ∧
  extract_heading (list_ascii_of_string "chapter. Here's the link: example.org")
    = Some (list_ascii_of_string "chapter. Here's the link: example.org").
Proof.
  split.
  - apply (proj1 (link_pattern_is_dead
                    (list_ascii_of_string "chapter. Here's the link: example.org"))).
    vm_compute. eauto.
  - rewrite (proj2 (link_pattern_is_dead
                      (list_ascii_of_string "chapter. Here's the link: example.org"))).
    vm_compute. reflexivity.
Defined.



(** X12.  A page with a line that begins with the word "chapter", in any
    case, has a chapter of its own: every chunk of the page carries as its
    chapter one whole line of the page that begins with "chapter" (the first
    such line), and no section, whatever else the page contains. *)
Theorem chapter_line_sets_chapter (split_text : str → list str)
    (uuid4_hex : nat → str) (pdf_path collection_name : str)
    (doc : list Document) (i : nat) (d : Document) (pre kw rest : str)
    (cs : list Document) (c : Document) :
  doc !! i = Some d →
  page_content d = pre ++ kw ++ rest →
  at_line_begin pre →
  lower kw = "chapter" →
  (rest = [] ∨ ∃ a t, rest = a :: t ∧ Char.is_word a = false) →
  ingest_pages split_text uuid4_hex pdf_path collection_name initial_state doc
    !! i = Some cs →
  c ∈ cs →
  ∃ pre' h post',
    page_content d = pre' ++ h ++ post' ∧ length pre' ≤ length pre ∧
    at_line_begin pre' ∧ at_line_end post' ∧ (Char.newline ∉ h) ∧
    (∃ t, lower h = "chapter" ++ t) ∧
    chapter_of c = Some (VStr h) ∧ section_of c = Some (VStr []).
Proof.
  intros Hd Htext Hpre Hkw Hrest Hcs Hc.
  destruct (search_from_leftmost pattern_chapter 0 None pre (kw ++ rest))
    as (a & h & Hs & Ha).
  { replace (last_or None pre) with (last pre)
      by (unfold last_or; by destruct (last pre)).
    by apply chapter_line_matches. }
  rewrite <- Htext in Hs. change (search pattern_chapter (page_content d) = Some (a, h)) in Hs.
  assert (extract_heading (page_content d) = Some h) as Hh.
  { unfold extract_heading, HEADING_PATTERNS. simpl. by rewrite Hs. }
  destruct (keyword_heading "Chapter" "CHAPTER" "chapter" (page_content d) a h)
    as [[t Ht] Hnl]; [done..|apply chapter_no_newline|done|].
  pose proof Hs as (_ & pre' & post' & Hsplit & -> & Hpre' & Hpost' & _)%line_pattern_shape;
    [|vm_compute; lia|done].
  exists pre', h, post'. split; [done|]. split; [lia|].
  split; [done|]. split; [done|]. split; [done|]. split; [eauto|].
  eapply chapter_heading_wins; [exact Hd|exact Hh| |exact Hcs|exact Hc].
  rewrite Ht. apply contains_app_l.
Qed.

Lemma chapter_line_sets_chapter_witness :
  chapter_of (nth_chunk section_above_chapter_chunks 0)
    = Some (VStr (list_ascii_of_string "chapter one: the start")) ∧
  ∃ pre' h post',
    lines ["Section 1.1 Scope"; "chapter one: the start"; "Text."]
      = pre' ++ h ++ post' ∧
    length pre' ≤ 18 ∧
    at_line_begin pre' ∧ at_line_end post' ∧ (Char.newline ∉ h) ∧
    (∃ t, lower h = "chapter" ++ t) ∧
    chapter_of (nth_chunk section_above_chapter_chunks 0) = Some (VStr h) ∧
    section_of (nth_chunk section_above_chapter_chunks 0) = Some (VStr []).
Proof.
  split; [vm_compute; reflexivity|].
  apply (chapter_line_sets_chapter langchain_split uuid_fixed "temp/book.pdf"
           "book" section_above_chapter 0
           (page 0 (lines ["Section 1.1 Scope"; "chapter one: the start"; "Text."]))
           (lines ["Section 1.1 Scope"; ""]) "chapter"
           (list_ascii_of_string " one: the start" ++ Char.newline
              :: list_ascii_of_string "Text.")
           [nth_chunk section_above_chapter_chunks 0]).
  - reflexivity.
  - vm_compute. reflexivity.
  - right. vm_compute. reflexivity.
  - vm_compute. reflexivity.
  - right. eexists _, _. split; [reflexivity|]. vm_compute. reflexivity.
  - vm_compute. reflexivity.
  - left.
Defined.

(** ** The first match of the numbered pattern *)

Section Greedy.

Implicit Types (p q : pos) (x rest : str).

Lemma head_bind_first {A B} (f : A → list B) (l : list A) m :
  head l = Some m → f m ≠ [] → head (l ≫= f) = head (f m).
Proof.
  destruct l as [|a l]; [done|]. intros [= ->] Hne. simpl.
  by destruct (f m).
Qed.

Lemma star_ends_stuck (step : pos → list pos) n p :
  step p = [] → star_ends step n p = [p].
Proof. intros H. destruct n; simpl; [done|]. by rewrite H. Qed.

(** A greedy loop over a class first reads all the characters of the class
    that are there. *)
Lemma head_star_class_all (f : ascii → bool) n prev x rest :
  length (x ++ rest) ≤ n → forallb f x = true →
  (rest = [] ∨ ∃ c t, rest = c :: t ∧ f c = false) →
  head (star_ends (ends (Cls f)) n (prev, x ++ rest)) = Some (last_or prev x, rest).
Proof.
  intros Hn Hx Hrest. revert n prev Hn.
  induction x as [|a x IH]; intros n prev Hn.
  - rewrite star_ends_stuck; [done|].
    destruct Hrest as [->|(c & t & -> & Hc)]; simpl; [done|by rewrite Hc].
  - simpl in Hx. apply andb_true_iff in Hx as [Ha Hx].
    destruct n as [|n]; [simpl in Hn; lia|].
    change (star_ends (ends (Cls f)) (S n) (prev, (a :: x) ++ rest))
      with ((filter (λ q : pos, length q.2 < length ((a :: x) ++ rest))
               (if f a then [(Some a, x ++ rest)] else [])
             ≫= star_ends (ends (Cls f)) n) ++ [(prev, (a :: x) ++ rest)]).
    rewrite Ha, filter_cons_True by (simpl; lia). rewrite filter_nil.
    change ([?m] ≫= ?g) with (g m ++ []). rewrite app_nil_r.
    specialize (IH Hx n (Some a) ltac:(simpl in Hn; lia)).
    destruct (star_ends (ends (Cls f)) n (Some a, x ++ rest)) as [|e es]; [done|].
    simpl in IH |- *. rewrite IH. f_equal. f_equal.
    exact (last_or_app prev [a] x).
Qed.

Lemma head_Plus_class (f : ascii → bool) prev a x rest :
  f a = true → forallb f x = true →
  (rest = [] ∨ ∃ c t, rest = c :: t ∧ f c = false) →
  head (ends (Plus (Cls f)) (prev, a :: x ++ rest))
  = Some (last_or prev (a :: x), rest).
Proof.
  intros Ha Hx Hrest.
  change (ends (Plus (Cls f)) (prev, a :: x ++ rest))
    with ((if f a then [(Some a, x ++ rest)] else []) ≫= ends (Star (Cls f))).
  rewrite Ha. change ([?m] ≫= ?g) with (g m ++ []). rewrite app_nil_r.
  change (ends (Star (Cls f)) (Some a, x ++ rest))
    with (star_ends (ends (Cls f)) (length (x ++ rest)) (Some a, x ++ rest)).
  rewrite head_star_class_all by done.
  f_equal. f_equal. exact (last_or_app prev [a] x).
Qed.

Lemma search_from_head (r : regex) start prev rest e :
  head (ends r (prev, rest)) = Some e →
  search_from r start prev rest
  = Some (start, take (length rest - length e.2) rest).
Proof.
  intros He.
  destruct rest; simpl; (destruct (ends r _) as [|e' es]; [done|]);
    by injection He as ->.
Qed.

(** A numeral on a line of its own, then a line that begins with a character
    other than whitespace: the numbered pattern reads both. *)
Lemma numbered_two_lines prev a n c t post :
  Char.is_digit a = true → forallb Char.is_digit n = true →
  Char.is_space c = false → forallb Char.is_dot t = true →
  at_line_end post →
  head (ends (Seq dotted_numeral
                (Seq (Plus (Cls Char.is_space)) (Plus (Cls Char.is_dot))))
          (prev, a :: n ++ Char.newline :: c :: t ++ post))
  = Some (last_or (Some c) t, post).
Proof.
  intros Ha Hn Hc Ht Hpost.
  assert (Char.is_dot c = true) as Hdot.
  { unfold Char.is_dot. apply negb_true_iff.
    destruct (Char.is_newline c) eqn:Hnl; [|done].
    apply Nat.eqb_eq, code_newline in Hnl. by subst. }
  set (m0 := (last_or prev (a :: n), Char.newline :: c :: t ++ post) : pos).
  assert (head (ends dotted_numeral
                  (prev, a :: n ++ Char.newline :: c :: t ++ post)) = Some m0)
    as Hdn.
  { change (ends dotted_numeral ?p)
      with (ends (Plus (Cls Char.is_digit)) p
            ≫= ends (Star (Seq (Cls (Char.eq ".")) (Plus (Cls Char.is_digit))))).
    assert (ends (Star (Seq (Cls (Char.eq ".")) (Plus (Cls Char.is_digit)))) m0
            = [m0]) as Hstuck by (by apply star_ends_stuck).
    erewrite head_bind_first.
    - by rewrite Hstuck.
    - apply head_Plus_class; [done..|]. right. eauto.
    - by rewrite Hstuck. }
  set (m1 := (Some Char.newline, c :: t ++ post) : pos).
  assert (head (ends (Plus (Cls Char.is_space)) m0) = Some m1) as Hsp.
  { apply (head_Plus_class Char.is_space _ Char.newline []); [done..|].
    right. eauto. }
  assert (head (ends (Plus (Cls Char.is_dot)) m1)
          = Some (last_or (Some c) t, post)) as Hpd.
  { unfold m1. rewrite head_Plus_class; [|done..|].
    - f_equal. f_equal. symmetry. exact (last_or_app (Some Char.newline) [c] t).
    - destruct Hpost as [->|Hpost]; [by left|right].
      destruct post as [|b post]; [done|]. injection Hpost as ->. eauto. }
  change (ends (Seq ?r ?s) ?p) with (ends r p ≫= ends s).
  erewrite head_bind_first; [|exact Hdn|].
  - change (ends (Seq ?r ?s) ?p) with (ends r p ≫= ends s).
    erewrite head_bind_first; [exact Hpd|exact Hsp|].
    intros Hnil. by rewrite Hnil in Hpd.
  - change (ends (Seq ?r ?s) ?p) with (ends r p ≫= ends s).
    intros Hnil. apply (f_equal head) in Hnil.
    erewrite head_bind_first in Hnil; [|exact Hsp|].
    + by rewrite Hpd in Hnil.
    + intros Hnil'. by rewrite Hnil' in Hpd.
Qed.

Lemma numbered_two_lines_search a n c t post :
  Char.is_digit a = true → forallb Char.is_digit n = true →
  Char.is_space c = false → forallb Char.is_dot t = true →
  at_line_end post →
  search pattern_numbered (a :: n ++ Char.newline :: c :: t ++ post)
  = Some (0, a :: n ++ Char.newline :: c :: t).
Proof.
  intros Ha Hn Hc Ht Hpost.
  pose proof (numbered_two_lines None a n c t post Ha Hn Hc Ht Hpost) as Hhead.
  unfold search, pattern_numbered.
  rewrite (search_from_head _ _ _ _ (last_or (Some c) t, post)).
  - f_equal. f_equal. cbn [snd].
    replace (a :: n ++ Char.newline :: c :: t ++ post)
      with ((a :: n ++ Char.newline :: c :: t) ++ post)
      by (simpl; by rewrite <- app_assoc).
    rewrite length_app.
    replace (length (a :: n ++ Char.newline :: c :: t) + length post - length post)
      with (length (a :: n ++ Char.newline :: c :: t)) by lia.
    by rewrite take_app_length.
  - rewrite ends_Bol. exact Hhead.
Qed.

End Greedy.

Lemma tag_fragment_numbered h cur :
  h ≠ [] → contains "chapter" (lower h) = false →
  is_Some (re_match numbered_prefix h) →
  tag_fragment (Some h) cur = (cur, Some h, cur).
Proof.
  intros Hne%truthy_nonempty Hc [m Hm]. unfold tag_fragment.
  rewrite Hne, Hc, Hm. by destruct (contains "section" (lower h)).
Qed.

(** X13.  The whitespace between the numeral and the title of a numbered
    heading may be a line break.  On a page that begins with a line holding
    only a number — a page number, say — followed by a line of text, and
    that has no chapter or section line, the heading is the number together
    with the whole next line: every chunk of the page carries these two lines
    as its section, or as its chapter when that next line contains
    "chapter". *)
Theorem number_line_joins_next_line (split_text : str → list str)
    (uuid4_hex : nat → str) (pdf_path collection_name : str)
    (doc : list Document) (i : nat) (d : Document)
    (a : ascii) (n : str) (c : ascii) (t post : str)
    (cs : list Document) (ck : Document) :
  doc !! i = Some d →
  page_content d = a :: n ++ Char.newline :: c :: t ++ post →
  Char.is_digit a = true → forallb Char.is_digit n = true →
  Char.is_space c = false → forallb Char.is_dot t = true →
  at_line_end post →
  search pattern_chapter (page_content d) = None →
  search pattern_section (page_content d) = None →
  ingest_pages split_text uuid4_hex pdf_path collection_name initial_state doc
    !! i = Some cs →
  ck ∈ cs →
  extract_heading (page_content d) = Some (a :: n ++ Char.newline :: c :: t) ∧
  if contains "chapter" (lower (a :: n ++ Char.newline :: c :: t))
  then chapter_of ck = Some (VStr (a :: n ++ Char.newline :: c :: t)) ∧
       section_of ck = Some (VStr [])
  else section_of ck = Some (VStr (a :: n ++ Char.newline :: c :: t)).
Proof.
  intros Hd Htext Ha Hn Hc Ht Hpost Hchap Hsec Hcs Hck.
  pose proof (numbered_two_lines_search a n c t post Ha Hn Hc Ht Hpost) as Hs.
  rewrite <- Htext in Hs.
  assert (extract_heading (page_content d)
          = Some (a :: n ++ Char.newline :: c :: t)) as Hh.
  { unfold extract_heading, HEADING_PATTERNS. simpl. by rewrite Hchap, Hsec, Hs. }
  split; [done|].
  destruct (contains "chapter" (lower (a :: n ++ Char.newline :: c :: t))) eqn:Hcc.
  - by eapply chapter_heading_wins.
  - destruct (ingest_pages_lookup _ _ _ _ _ _ _ _ _ Hd Hcs) as [st ->].
    assert (a :: n ++ Char.newline :: c :: t ≠ []) as Hne by done.
    pose proof (tag_fragment_numbered _ (current_chapter st)
                  Hne Hcc (numbered_heading _ _ _ Hs)) as Htag.
    rewrite <- Hh in Htag at 1.
    destruct (ingest_page_elem _ _ _ _ _ _ _ _ _ _ Htag Hck)
      as (k & piece & m & _ & _ & _ & Hm).
    unfold section_of. by rewrite Hm, chunk_meta_section, or_empty_Some.
Qed.

Lemma number_line_joins_next_line_witness :
  section_of (nth_chunk numbered_top_page_chunks 0)
    = Some (VStr (lines ["12"; "The harvest was late that year."])).
Proof.
  apply (proj2 (number_line_joins_next_line langchain_split uuid_fixed
                  "temp/book.pdf" "book" numbered_top_page 0
                  (page 0 (lines ["12"; "The harvest was late that year.";
                                  "Rain fell."]))
                  "1" "2" "T" "he harvest was late that year."
                  (Char.newline :: list_ascii_of_string "Rain fell.")
                  [nth_chunk numbered_top_page_chunks 0] _
                  eq_refl eq_refl eq_refl eq_refl eq_refl eq_refl
                  (or_intror eq_refl) eq_refl eq_refl
                  ltac:(vm_compute; reflexivity)
                  ltac:(left))).
Defined.

(** ** Trimmed texts *)

Lemma lstrip_suffix s : lstrip s `suffix_of` s.
Proof.
  induction s as [|c s IH]; simpl; [done|].
  destruct (Char.is_space c); [by apply suffix_cons_r|done].
Qed.

Lemma lstrip_head s c t : lstrip s = c :: t → Char.is_space c = false.
Proof.
  induction s as [|a s IH]; simpl; [done|].
  destruct (Char.is_space a) eqn:Ha; [done|]. by intros [= <- _].
Qed.

Lemma lstrip_fixed s :
  (∀ c, head s = Some c → Char.is_space c = false) → lstrip s = s.
Proof. destruct s as [|c s]; simpl; [done|]. intros H. by rewrite (H c). Qed.

Lemma strip_trimmed s : strip s ≠ [] → trimmed (strip s).
Proof.
  unfold strip, rstrip.
  destruct (lstrip_suffix (reverse (lstrip s))) as [pre Hpre].
  destruct (lstrip (reverse (lstrip s))) as [|b z] eqn:Hz; [done|].
  intros _. pose proof (lstrip_head _ _ _ Hz) as Hb.
  apply (f_equal reverse) in Hpre.
  rewrite reverse_involutive, reverse_app in Hpre.
  destruct (reverse (b :: z)) as [|a t] eqn:Hr.
  { apply (f_equal length) in Hr. rewrite length_reverse in Hr. done. }
  exists a, b. split; [done|]. split.
  - by rewrite <- Hr, last_reverse.
  - split; [|done]. by eapply lstrip_head.
Qed.

Lemma trimmed_strip s : trimmed s → strip s = s.
Proof.
  intros (a & b & Ha & Hb & Hsa & Hsb). unfold strip, rstrip.
  rewrite (lstrip_fixed s) by (intros c; rewrite Ha; by intros [= <-]).
  rewrite lstrip_fixed.
  - apply reverse_involutive.
  - intros c. rewrite head_reverse, Hb. by intros [= <-].
Qed.

Lemma trimmed_nonempty s : trimmed s → s ≠ [].
Proof. by intros (a & b & Ha & _) ->. Qed.

Lemma trimmed_not_blank s : trimmed s → forallb Char.is_space s = false.
Proof.
  intros (a & b & Ha & _ & Hsa & _). destruct s as [|c s]; [done|].
  injection Ha as ->. simpl. by rewrite Hsa.
Qed.

Lemma strip_nonblank s : forallb Char.is_space s = false → strip s ≠ [].
Proof.
  intros Hs Hnil.
  assert (∀ t, lstrip t = [] → forallb Char.is_space t = true) as Hl.
  { induction t as [|c t IH]; simpl; [done|].
    destruct (Char.is_space c); [done|by intros ?]. }
  unfold strip, rstrip in Hnil.
  apply (f_equal reverse) in Hnil. rewrite reverse_involutive in Hnil.
  apply Hl in Hnil.
  destruct (lstrip_suffix s) as [pre Hpre].
  assert (forallb Char.is_space (lstrip s) = true) as Hls.
  { apply forallb_elem. intros c Hc. rewrite forallb_elem in Hnil.
    apply Hnil. by apply elem_of_reverse. }
  destruct (lstrip s) as [|c t] eqn:Hc.
  - apply Hl in Hc. congruence.
  - simpl in Hls. apply andb_true_iff in Hls as [Hsc _].
    by rewrite (lstrip_head _ _ _ Hc) in Hsc.
Qed.

(** ** The pieces of the splitter *)

Section SplitterPieces.

Variables chunk_size chunk_overlap : nat.

Lemma join_docs_trimmed docs text :
  RCTS.join_docs docs [] = Some text → trimmed text.
Proof.
  unfold RCTS.join_docs.
  destruct (truthy (strip _)) eqn:Ht; [|done]. intros [= <-].
  by apply strip_trimmed, truthy_nonempty.
Qed.

Lemma merge_loop_trimmed splits docs current_doc total piece :
  Forall trimmed docs →
  piece ∈ RCTS.merge_loop chunk_size chunk_overlap [] splits docs current_doc total →
  trimmed piece.
Proof.
  assert (∀ cur docs0, Forall trimmed docs0 →
            Forall trimmed (docs0 ++ option_list (RCTS.join_docs cur [])))
    as Hflush.
  { intros cur docs0 Hdocs0. apply Forall_app. split; [done|].
    destruct (RCTS.join_docs cur []) as [text|] eqn:Hj; [|constructor].
    apply Forall_singleton. by eapply join_docs_trimmed. }
  revert docs current_doc total.
  induction splits as [|d splits IH]; intros docs current_doc total Hdocs.
  - simpl. intros Hp. specialize (Hflush current_doc _ Hdocs).
    rewrite Forall_forall in Hflush. by apply Hflush.
  - rewrite merge_loop_step. destruct (_ && _); apply IH; auto.
Qed.

(** With the empty separator last, every piece comes out of a merge: none is
    empty, none begins or ends with whitespace. *)
Lemma split_text_with_trimmed separators text piece :
  1 < chunk_size → last separators = Some [] →
  piece ∈ RCTS.split_text_with chunk_size chunk_overlap separators text →
  trimmed piece.
Proof.
  intros Hsize. revert text piece.
  induction separators as [|s rest IH]; intros text piece Hlast; simpl;
    [by inversion 1|].
  assert (∀ recur,
    match recur with
    | None => s = []
    | Some again => ∀ t p, p ∈ again t → trimmed p
    end →
    piece ∈ RCTS.split_loop chunk_size chunk_overlap recur
              (RCTS.split_text_with_regex text s) [] →
    trimmed piece) as Hloop.
  { intros recur Hrecur.
    apply (split_loop_inv chunk_size chunk_overlap (λ _, True) trimmed).
    - intros good _. apply Forall_forall. intros p Hp.
      by eapply (merge_loop_trimmed good [] [] 0).
    - by apply Forall_forall.
    - destruct recur as [again|].
      + apply Forall_forall. intros p _. split; [done|]. intros _.
        apply Forall_forall. intros q. apply Hrecur.
      + subst s. eapply Forall_impl; [apply split_text_with_regex_chars|].
        simpl. intros p Hp. split; [done|lia]. }
  destruct s as [|a s]; simpl; [by apply (Hloop None)|].
  assert (rest ≠ []) as Hrest by (by intros ->).
  assert (last rest = Some []) as Hlast'.
  { destruct rest; [done|]. by rewrite last_cons_cons in Hlast. }
  rewrite !(bool_decide_eq_false_2 (rest = [])) by done.
  destruct (contains (a :: s) text); [|by apply IH].
  apply (Hloop (Some _)). intros t p. by apply IH.
Qed.

End SplitterPieces.

Lemma langchain_split_trimmed text piece :
  piece ∈ langchain_split text → trimmed piece.
Proof. apply split_text_with_trimmed; [lia|done]. Qed.

(** A text of whitespace only has no pieces. *)
Lemma langchain_split_blank text :
  forallb Char.is_space text = true → langchain_split text = [].
Proof.
  intros Hblank. destruct (langchain_split text) as [|piece pieces] eqn:Hp; [done|].
  assert (piece ∈ langchain_split text) as Hin by (rewrite Hp; left).
  destruct (langchain_split_trimmed _ _ Hin) as (a & b & Ha & _ & Hsa & _).
  rewrite forallb_elem in Hblank. rewrite Hblank in Hsa; [done|].
  eapply langchain_split_elem; [exact Hin|].
  destruct piece; [done|]. injection Ha as ->. left.
Qed.

(** ** Texts that fit one piece *)

Section OnePiece.

Variables chunk_size chunk_overlap : nat.

Lemma split_keep_mjoin sep skip acc text :
  mjoin (RCTS.split_keep sep skip acc text) = reverse acc ++ text.
Proof.
  revert skip acc. induction text as [|c text IH]; intros skip acc; simpl.
  - by rewrite app_nil_r.
  - destruct skip as [|k].
    + destruct (startswith sep (c :: text)); simpl.
      * by rewrite IH.
      * rewrite IH, reverse_cons. by rewrite <- app_assoc.
    + rewrite IH, reverse_cons. by rewrite <- app_assoc.
Qed.

Lemma mjoin_filter_nonempty (l : list str) :
  mjoin (filter (λ s, s ≠ []) l) = mjoin l.
Proof.
  induction l as [|s l IH]; [done|]. destruct s as [|c s].
  - by rewrite filter_cons_False by (by intros ?).
  - rewrite filter_cons_True by done. simpl. by rewrite IH.
Qed.

Lemma split_text_with_regex_mjoin text separator :
  mjoin (RCTS.split_text_with_regex text separator) = text.
Proof.
  unfold RCTS.split_text_with_regex. rewrite mjoin_filter_nonempty.
  destruct (truthy separator).
  - by rewrite split_keep_mjoin.
  - apply mjoin_chars.
Qed.

Lemma split_text_with_regex_nonempty text separator :
  Forall (λ s, s ≠ []) (RCTS.split_text_with_regex text separator).
Proof.
  apply Forall_forall. intros s Hs.
  unfold RCTS.split_text_with_regex in Hs.
  by apply list_elem_of_filter in Hs as [? _].
Qed.

Lemma merge_loop_fits splits docs current_doc total :
  total = length (mjoin current_doc) →
  length (mjoin current_doc) + length (mjoin splits) ≤ chunk_size →
  RCTS.merge_loop chunk_size chunk_overlap [] splits docs current_doc total
  = docs ++ option_list (RCTS.join_docs (current_doc ++ splits) []).
Proof.
  revert current_doc total.
  induction splits as [|d splits IH]; intros current_doc total Htot Hfit.
  - simpl. by rewrite app_nil_r.
  - rewrite merge_loop_step. simpl in Hfit. rewrite length_app in Hfit.
    rewrite (bool_decide_eq_false_2 (chunk_size < total + length d)) by lia.
    simpl. rewrite IH.
    + by rewrite <- app_assoc.
    + rewrite join_app, length_app. simpl. rewrite app_nil_r. lia.
    + rewrite join_app, length_app. simpl. rewrite app_nil_r. lia.
Qed.

Lemma flush_fits pieces :
  length (mjoin pieces) ≤ chunk_size →
  RCTS.flush chunk_size chunk_overlap pieces = one_piece (mjoin pieces).
Proof.
  intros Hfit. unfold RCTS.flush, one_piece. case_bool_decide as Hnil.
  - by subst.
  - unfold RCTS.merge_splits. rewrite merge_loop_fits by done. simpl.
    unfold RCTS.join_docs. rewrite join_empty_separator.
    by destruct (truthy (strip (mjoin pieces))).
Qed.

(** A piece as long as the whole text is the only piece. *)
Lemma long_piece_alone (pieces : list str) p :
  Forall (λ s, s ≠ []) pieces → p ∈ pieces →
  length (mjoin pieces) ≤ length p → pieces = [p].
Proof.
  intros Hne (l1 & l2 & ->)%list_elem_of_split.
  rewrite join_app, length_app. simpl. rewrite length_app. intros Hlen.
  apply Forall_app in Hne as [Hne1 Hne2]. apply Forall_cons in Hne2 as [_ Hne2].
  destruct l1 as [|[|c s] l1].
  - destruct l2 as [|[|c s] l2]; [done| |].
    + by apply Forall_cons in Hne2 as [? _].
    + simpl in Hlen. lia.
  - by apply Forall_cons in Hne1 as [? _].
  - simpl in Hlen. lia.
Qed.

Lemma split_loop_fits recur text separator :
  length text ≤ chunk_size →
  match recur with
  | None => Forall (λ s, length s < chunk_size)
                   (RCTS.split_text_with_regex text separator)
  | Some again => again text = one_piece text
  end →
  RCTS.split_loop chunk_size chunk_overlap recur
    (RCTS.split_text_with_regex text separator) []
  = one_piece text.
Proof.
  intros Hfit Hrecur.
  pose proof (split_text_with_regex_mjoin text separator) as Hjoin.
  pose proof (split_text_with_regex_nonempty text separator) as Hne.
  destruct (decide (Forall (λ s, length s < chunk_size)
                           (RCTS.split_text_with_regex text separator)))
    as [Hshort|Hlong].
  - rewrite split_loop_all_short by done. simpl.
    rewrite flush_fits by (by rewrite Hjoin). by rewrite Hjoin.
  - destruct recur as [again|]; [|done].
    apply not_Forall_Exists in Hlong; [|apply _].
    apply Exists_exists in Hlong as (p & Hp & Hlen). simpl in Hlen.
    assert (RCTS.split_text_with_regex text separator = [p]) as Hone.
    { apply long_piece_alone; [done..|]. rewrite Hjoin. lia. }
    rewrite Hone in Hjoin |- *. simpl in Hjoin. rewrite app_nil_r in Hjoin. subst p.
    simpl. rewrite bool_decide_eq_false_2 by done.
    unfold RCTS.flush. rewrite bool_decide_eq_true_2 by done. simpl.
    by rewrite app_nil_r.
Qed.

Lemma split_text_with_fits separators text :
  1 < chunk_size → last separators = Some [] → length text ≤ chunk_size →
  RCTS.split_text_with chunk_size chunk_overlap separators text = one_piece text.
Proof.
  intros Hsize Hlast Hfit. revert text Hfit.
  induction separators as [|s rest IH]; intros text Hfit; [done|]. simpl.
  destruct s as [|a s]; simpl.
  - apply (split_loop_fits None); [done|].
    eapply Forall_impl; [apply split_text_with_regex_chars|].
    simpl. intros p Hp. lia.
  - assert (rest ≠ []) as Hrest by (by intros ->).
    assert (last rest = Some []) as Hlast'.
    { destruct rest; [done|]. by rewrite last_cons_cons in Hlast. }
    rewrite !(bool_decide_eq_false_2 (rest = [])) by done.
    destruct (contains (a :: s) text); [|by apply IH].
    apply (split_loop_fits (Some _)); [done|]. by apply IH.
Qed.

End OnePiece.

Lemma langchain_split_fits text :
  length text ≤ 1000 → langchain_split text = one_piece text.
Proof. apply split_text_with_fits; [lia|done]. Qed.

Lemma trimmed_kept (pieces : list str) :
  Forall trimmed pieces → filter (λ s, s ≠ []) (strip <$> pieces) = pieces.
Proof.
  induction 1 as [|p pieces Hp _ IH]; [done|].
  rewrite fmap_cons, (trimmed_strip p Hp),
    filter_cons_True by (by apply trimmed_nonempty).
  by rewrite IH.
Qed.

(** What the page loop keeps of a page is what the splitter makes of it. *)
Lemma page_chunks_are_pieces text :
  filter (λ s, s ≠ []) (strip <$> small_chunks_of langchain_split text)
  = langchain_split text.
Proof.
  unfold small_chunks_of. case_bool_decide as Hlen.
  - apply trimmed_kept, Forall_forall. apply langchain_split_trimmed.
  - rewrite langchain_split_fits by lia. unfold one_piece. simpl.
    destruct (strip text) as [|c s] eqn:Hs; simpl.
    + by rewrite filter_cons_False by (by intros ?).
    + by rewrite filter_cons_True.
Qed.

Section SameTexts.

Variable uuid4_hex : nat → str.
Variables pdf_path collection_name : str.

Lemma chunk_docs_texts st doc :
  page_content <$>
    mjoin (ingest_pages langchain_split uuid4_hex pdf_path collection_name st doc)
  = doc ≫= (λ d, langchain_split (page_content d)).
Proof.
  revert st. induction doc as [|d doc IH]; intros st; [done|].
  rewrite ingest_pages_cons. simpl. rewrite fmap_app, IH.
  by rewrite ingest_page_contents, page_chunks_are_pieces.
Qed.

Lemma split_documents_texts (split_text : str → list str) doc :
  page_content <$> split_documents split_text doc
  = doc ≫= (λ d, split_text (page_content d)).
Proof.
  induction doc as [|d doc IH]; [done|].
  change (split_documents split_text (d :: doc))
    with (((λ piece, mkDocument piece (metadata d)) <$> split_text (page_content d))
          ++ split_documents split_text doc).
  rewrite fmap_app, IH. simpl. f_equal.
  rewrite <- list_fmap_compose. apply list_fmap_id.
Qed.

End SameTexts.

Section Runs.

Variable uuid4_hex : nat → str.

Lemma run_same_texts pdf_path name w :
  page_content <$>
    run_chunk_docs (ingest_pdf_to_vectordb langchain_split uuid4_hex pdf_path name w)
  = page_content <$>
      run_docstore (ingest_pdf_to_vectordb langchain_split uuid4_hex pdf_path name w).
Proof.
  unfold run_chunk_docs, run_docstore.
  destruct (ingest_pdf_to_vectordb_cases langchain_split uuid4_hex pdf_path name w)
    as [[e ->]|(doc & _ & _ & ->)]; [done|]. simpl.
  unfold chunk_docs_of. by rewrite chunk_docs_texts, split_documents_texts.
Qed.


Lemma blank_pages_no_pieces doc :
  Forall (λ d, forallb Char.is_space (page_content d) = true) doc →
  split_documents langchain_split doc = [].
Proof.
  induction 1 as [|d doc Hd _ IH]; [done|].
  change (split_documents langchain_split (d :: doc))
    with (((λ piece, mkDocument piece (metadata d))
             <$> langchain_split (page_content d))
          ++ split_documents langchain_split doc).
  by rewrite IH, (langchain_split_blank _ Hd).
Qed.

End Runs.

(** X14.  No chunk of [chunk_docs] begins or ends with whitespace, whatever
    the splitter returns: every chunk has a first and a last character, and
    neither is a whitespace character. *)
Theorem chunks_are_trimmed (split_text : str → list str) (uuid4_hex : nat → str)
    (pdf_path collection_name : str) (doc : list Document) (c : Document) :
  c ∈ chunk_docs_of split_text uuid4_hex pdf_path collection_name doc →
  trimmed (page_content c) ∧ strip (page_content c) = page_content c.
Proof.
  intros (d & piece & _ & _ & Hc & Hne)%chunk_docs_elem.
  assert (trimmed (page_content c)) as Ht.
  { rewrite Hc in Hne |- *. by apply strip_trimmed. }
  split; [done|by apply trimmed_strip].
Qed.

Lemma chunks_are_trimmed_witness :
  page_content (nth_chunk padded_page_chunks 0)
    = lines ["Chapter 1"; "It was a dark night."] ∧
  trimmed (page_content (nth_chunk padded_page_chunks 0)) ∧
  strip (page_content (nth_chunk padded_page_chunks 0))
    = page_content (nth_chunk padded_page_chunks 0).
Proof.
  split; [vm_compute; reflexivity|].
  apply (chunks_are_trimmed langchain_split uuid_fixed "temp/book.pdf" "book"
           padded_page).
  vm_compute. left.
Defined.

(** X15.  With the splitter of line 57, the tagged chunks and the indexed
    documents of a run have the same texts, in the same order: the page loop
    cuts and trims each page into exactly the pieces [split_documents] makes
    of it. *)
Theorem index_and_chunk_docs_same_texts (uuid4_hex : nat → str)
    (pdf_path : str) (name : option str) (w : world) :
  page_content <$>
    run_chunk_docs (ingest_pdf_to_vectordb langchain_split uuid4_hex pdf_path name w)
  = page_content <$>
      run_docstore (ingest_pdf_to_vectordb langchain_split uuid4_hex pdf_path name w).
Proof. apply run_same_texts. Qed.



(** X17.  A file whose pages hold no text — no page at all, or whitespace
    only, as a scan without text layer — cannot be ingested: the splitter
    makes no piece of it, the dense index builder fails on the empty list,
    and nothing is saved. *)
Theorem blank_file_fails (uuid4_hex : nat → str) (pdf_path : str)
    (name : option str) (w : world) (pages : list str) :
  files w pdf_path = Some (Pdf pages) →
  Forall (λ text, forallb Char.is_space text = true) pages →
  ingest_pdf_to_vectordb langchain_split uuid4_hex pdf_path name w
  = (w, inl IndexError).
Proof.
  intros Hf Hblank. unfold ingest_pdf_to_vectordb, PyPDFLoader_load. rewrite Hf.
  rewrite blank_pages_no_pieces; [done|].
  apply Forall_forall. intros d (i & text & -> & Hi)%elem_of_lookup_imap.
  rewrite Forall_forall in Hblank. apply Hblank. by eapply list_elem_of_lookup_2.
Qed.

Lemma blank_file_fails_witness :
  ingest_pdf_to_vectordb langchain_split uuid_fixed "temp/scan.pdf" None
    scanned_book
  = (scanned_book, inl IndexError).
Proof.
  apply (blank_file_fails uuid_fixed "temp/scan.pdf" None scanned_book
           [[]; list_ascii_of_string "  "; [Char.newline]]).
  - reflexivity.
  - repeat constructor.
Defined.
